(** * Options premiums grid: formatting, filtering, sorting and totals

    A shallow embedding of the premiums page (the [fmt] and [money]
    formatters, the [filteredSorted] and [netTotalsByDelta] memos and the
    auto-scroll effect of [Page]) together with the part of the JavaScript
    platform those functions call, and the properties of the grid engine
    proved over that embedding.

    Conventions of the embedding.
    - A JavaScript Number is a binary64 value: the primitive [float].
    - A JavaScript string is modelled by the sequence of its bytes in UTF-8;
      case mapping and white space are modelled on the ASCII range (ticker
      symbols and queries), bytes above 127 have no case and are not white
      space.
    - A row is a JSON object; a field value is one of the scalar JSON
      values, or [undefined] for a field that is absent. Arrays and objects
      nested inside a row, and names a row inherits from [Object.prototype],
      are not modelled.
    - [toLocaleString] is the one of the en-US locale, the locale of the
      formats the page is written for ("1,500"), as ECMA-402 defines it.
    - An array is an object of a store and a variable holds a reference to
      it, so that sorting in place is visible through every alias. *)

From Stdlib Require Import ZArith Floats Uint63 Ascii String Lia.
From stdpp Require Import gmap strings list fin_maps sorting.

Set Warnings "-inexact-float".
Open Scope Z_scope.

(** ** The JavaScript platform *)

Module JS.

(** *** Strings *)

Definition is_whitespace (c : ascii) : bool :=
  let n := N_of_ascii c in
  ((9 <=? n) && (n <=? 13) || (n =? 32))%N.

Definition is_digit (c : ascii) : bool :=
  let n := N_of_ascii c in ((48 <=? n) && (n <=? 57))%N.

Definition lower_char (c : ascii) : ascii :=
  let n := N_of_ascii c in
  if ((65 <=? n) && (n <=? 90))%N then ascii_of_N (n + 32) else c.

(** [String.prototype.toLowerCase] *)
Fixpoint toLowerCase (s : string) : string :=
  match s with
  | EmptyString => EmptyString
  | String c s' => String (lower_char c) (toLowerCase s')
  end.

Fixpoint trim_start (s : string) : string :=
  match s with
  | String c s' => if is_whitespace c then trim_start s' else s
  | EmptyString => EmptyString
  end.

Fixpoint trim_end (s : string) : string :=
  match s with
  | EmptyString => EmptyString
  | String c s' =>
      match trim_end s' with
      | EmptyString => if is_whitespace c then EmptyString else String c EmptyString
      | t => String c t
      end
  end.

(** [String.prototype.trim] *)
Definition trim (s : string) : string := trim_end (trim_start s).

Fixpoint starts_with (p s : string) : bool :=
  match p, s with
  | EmptyString, _ => true
  | String a p', String b s' => if Ascii.eqb a b then starts_with p' s' else false
  | String _ _, EmptyString => false
  end.

(** [String.prototype.includes]: [q] occurs in [s] at some position. *)
Fixpoint includes (s q : string) : bool :=
  starts_with q s ||
  match s with
  | EmptyString => false
  | String _ s' => includes s' q
  end.

(** The relational operator [<] on two strings: lexicographic on code
    units, a proper prefix being smaller. *)
Fixpoint string_lt (s t : string) : bool :=
  match s, t with
  | _, EmptyString => false
  | EmptyString, String _ _ => true
  | String a s', String b t' =>
      if (N_of_ascii a <? N_of_ascii b)%N then true
      else if (N_of_ascii b <? N_of_ascii a)%N then false
      else string_lt s' t'
  end.

(** *** Numbers *)

(** The Number nearest to the rational [num / den], ties to even, with the
    given sign. *)
Definition round_ratio (neg : bool) (num den : positive) : float :=
  SF2Prim (SFdiv prec emax (S754_finite neg num 0) (S754_finite false den 0)).

(** The Number value of the decimal [m * 10 ^ e]. *)
Definition of_decimal (neg : bool) (m e : Z) : float :=
  match m with
  | Zpos p =>
      match e with
      | Zneg k => round_ratio neg p (10 ^ k)%positive
      | Z0 => round_ratio neg p 1
      | Zpos k => round_ratio neg (p * 10 ^ k)%positive 1
      end
  | _ => if neg then neg_zero else PrimFloat.zero
  end.

Definition digit_val (c : ascii) : Z := Z.of_N (N_of_ascii c) - 48.

(** The value of a hexadecimal, octal or binary digit, when it is one. *)
Definition radix_digit (radix : Z) (c : ascii) : option Z :=
  let n := Z.of_N (N_of_ascii c) in
  let v := if (48 <=? n) && (n <=? 57) then Some (n - 48)
           else if (97 <=? n) && (n <=? 102) then Some (n - 87)
           else if (65 <=? n) && (n <=? 70) then Some (n - 55)
           else None in
  match v with
  | Some d => if d <? radix then Some d else None
  | None => None
  end.

Fixpoint radix_value (radix : Z) (s : string) (acc : Z) : option Z :=
  match s with
  | EmptyString => Some acc
  | String c s' =>
      match radix_digit radix c with
      | Some d => radix_value radix s' (acc * radix + d)
      | None => None
      end
  end.

(** Splits off the longest prefix of decimal digits: its value, its length
    and the rest of the string. *)
Fixpoint span_digits (s : string) (acc : Z) (len : Z) : Z * Z * string :=
  match s with
  | String c s' =>
      if is_digit c then span_digits s' (acc * 10 + digit_val c) (len + 1)
      else (acc, len, s)
  | EmptyString => (acc, len, s)
  end.

(** ExponentPart: [e] or [E], an optional sign and at least one digit, up
    to the end of the literal. *)
Definition exponent_part (s : string) : option Z :=
  match s with
  | EmptyString => Some 0
  | String c s' =>
      if Ascii.eqb c "e" || Ascii.eqb c "E" then
        let '(neg, digits) :=
          match s' with
          | String "-" t => (true, t)
          | String "+" t => (false, t)
          | _ => (false, s')
          end in
        match span_digits digits 0 0 with
        | (v, len, EmptyString) =>
            if 0 <? len then Some (if neg then - v else v) else None
        | _ => None
        end
      else None
  end.

(** StrUnsignedDecimalLiteral *)
Definition unsigned_decimal (neg : bool) (s : string) : float :=
  if String.eqb s "Infinity" then (if neg then neg_infinity else infinity)
  else
    let '(ip, ilen, rest) := span_digits s 0 0 in
    let '(m, flen, rest') :=
      match rest with
      | String "." t =>
          let '(m, flen, rest') := span_digits t ip 0 in (m, flen, rest')
      | _ => (ip, 0, rest)
      end in
    if 0 <? ilen + flen then
      match exponent_part rest' with
      | Some e => of_decimal neg m (e - flen)
      | None => nan
      end
    else nan.

(** StringToNumber: the Number a string coerces to, [nan] when the string
    is not a StringNumericLiteral. *)
Definition StringToNumber (s : string) : float :=
  match trim s with
  | EmptyString => PrimFloat.zero
  | String "0" (String x t) as lit =>
      let radix :=
        if Ascii.eqb x "x" || Ascii.eqb x "X" then Some 16
        else if Ascii.eqb x "o" || Ascii.eqb x "O" then Some 8
        else if Ascii.eqb x "b" || Ascii.eqb x "B" then Some 2
        else None in
      match radix with
      | Some r =>
          match t with
          | EmptyString => nan
          | _ => match radix_value r t 0 with
                 | Some v => of_decimal false v 0
                 | None => nan
                 end
          end
      | None => unsigned_decimal false lit
      end
  | String "-" t => unsigned_decimal true t
  | String "+" t => unsigned_decimal false t
  | lit => unsigned_decimal false lit
  end.

(** The exact value of a finite Number with mantissa [m] and exponent [e],
    as the fraction [num / den]. *)
Definition ratio_of (m : positive) (e : Z) : Z * Z :=
  match e with
  | Zneg k => (Zpos m, 2 ^ Zpos k)
  | _ => (Zpos m * 2 ^ e, 1)
  end.

(** The integer nearest to [num / den], the larger one on a tie. *)
Definition round_half_up (num den : Z) : Z := (2 * num + den) / (2 * den).

(** ToRawFixed: the integer [n] for which [n / 10 ^ f] is nearest to the
    magnitude [m * 2 ^ e], the larger one on a tie. *)
Definition scaled_round (m : positive) (e : Z) (f : nat) : Z :=
  let '(num, den) := ratio_of m e in
  round_half_up (num * 10 ^ Z.of_nat f) den.

Definition digit_char (d : Z) : ascii := ascii_of_N (Z.to_N (48 + d)).

Fixpoint digits_fuel (fuel : nat) (n : Z) (acc : string) : string :=
  match fuel with
  | O => acc
  | S k =>
      let acc' := String (digit_char (n mod 10)) acc in
      if n <? 10 then acc' else digits_fuel k (n / 10) acc'
  end.

(** The decimal digits of a natural number, without leading zeros. *)
Definition decimal_string (n : Z) : string :=
  digits_fuel (S (Z.to_nat (Z.log2 n))) n EmptyString.

(** The last [width] decimal digits of [n], zero padded. *)
Fixpoint fixed_digits (width : nat) (n : Z) : string :=
  match width with
  | O => EmptyString
  | S w => fixed_digits w (n / 10) +:+ String (digit_char (n mod 10)) EmptyString
  end.

Fixpoint strip_trailing_zeros (s : string) : string :=
  match s with
  | EmptyString => EmptyString
  | String c s' =>
      match strip_trailing_zeros s' with
      | EmptyString => if Ascii.eqb c "0" then EmptyString else String c EmptyString
      | t => String c t
      end
  end.

(** Grouping separators of en-US: a comma before every group of three
    integer digits. *)
Fixpoint group3 (s : string) : string :=
  match s with
  | EmptyString => EmptyString
  | String c s' =>
      let n := String.length s' in
      String c (if negb (Nat.eqb n 0) && Nat.eqb (n mod 3) 0
                then String "," (group3 s') else group3 s')
  end.

Definition sign_prefix (neg : bool) : string := if neg then "-" else "".

Definition fraction_suffix (fp : string) : string :=
  match fp with
  | EmptyString => EmptyString
  | _ => "." +:+ fp
  end.

(** The text of a decimal number in en-US: sign, grouped integer digits
    and, when there are fraction digits, a point and the fraction digits. *)
Definition render (neg : bool) (ip fp : string) : string :=
  sign_prefix neg +:+ group3 ip +:+ fraction_suffix fp.

(** [Number.prototype.toLocaleString(undefined, { maximumFractionDigits })]
    in en-US: decimal style, no minimum of fraction digits, so trailing
    zeros of the fraction are dropped; rounding mode half-expand on the
    exact value; the sign is the one of the Number. *)
Definition toLocaleString (x : float) (maximumFractionDigits : nat) : string :=
  match Prim2SF x with
  | S754_nan => "NaN"
  | S754_infinity s => sign_prefix s +:+ "∞"
  | S754_zero s => render s "0" ""
  | S754_finite s m e =>
      let f := maximumFractionDigits in
      let n := scaled_round m e f in
      render s (decimal_string (n / 10 ^ Z.of_nat f))
               (strip_trailing_zeros (fixed_digits f (n mod 10 ^ Z.of_nat f)))
  end.

(** [toLocaleString()] without options: at most 3 fraction digits. *)
Definition default_maximumFractionDigits : nat := 3%nat.

(** *** Number to string *)

Definition lt_pow10 (num den n : Z) : bool :=
  if 0 <=? n then num <? den * 10 ^ n else num * 10 ^ (- n) <? den.

Fixpoint dec_exp_search (fuel : nat) (num den n : Z) : Z :=
  match fuel with
  | O => n
  | S k => if lt_pow10 num den n then n else dec_exp_search k num den (n + 1)
  end.

(** The least [n] with [num / den < 10 ^ n]. The search starts from a lower
    estimate taken from the binary logarithms. *)
Definition decimal_exponent (num den : Z) : Z :=
  let l := Z.log2 num - Z.log2 den - 1 in
  let n0 := (if 0 <=? l then l * 30102 / 100000 else l * 30103 / 100000) + 1 in
  dec_exp_search 8 num den n0.

(** The candidates with [k] digits for the digits of [x = num / den], where
    [10 ^ (n - 1) <= x < 10 ^ n]: the two integers [s] around
    [x / 10 ^ (n - k)], kept when [s * 10 ^ (n - k)] reads back as [x]; of
    two that do, the nearer to [x], the even one on a tie. *)
Definition shortest_candidate (x : float) (num den n : Z) (k : Z) : option Z :=
  let scale := n - k in
  let '(tn, td) := if 0 <=? scale then (num, den * 10 ^ scale)
                   else (num * 10 ^ (- scale), den) in
  let lo := tn / td in
  let hi := lo + 1 in
  let ok c := (of_decimal false c scale =? x)%float in
  match ok lo, ok hi with
  | true, true =>
      match 2 * (tn - lo * td) ?= td with
      | Lt => Some lo
      | Gt => Some hi
      | Eq => Some (if Z.even lo then lo else hi)
      end
  | true, false => Some lo
  | false, true => Some hi
  | false, false => None
  end.

Fixpoint shortest_search (fuel : nat) (x : float) (num den n k : Z) : Z * Z :=
  match fuel with
  | O => (num * 10 ^ (k - n) / den, k)
  | S fuel' =>
      match shortest_candidate x num den n k with
      | Some s => (s, k)
      | None => shortest_search fuel' x num den n (k + 1)
      end
  end.

(** The digits [s], their number [k] and the decimal exponent [n] of
    Number::toString: [k] is as small as possible with [s * 10 ^ (n - k)]
    reading back as the Number. Seventeen digits always suffice. *)
Definition shortest_digits (x : float) (m : positive) (e : Z) : Z * Z * Z :=
  let '(num, den) := ratio_of m e in
  let n := decimal_exponent num den in
  let '(s, k) := shortest_search 17 x num den n 1 in
  if s =? 10 ^ k then (10 ^ (k - 1), k, n + 1) else (s, k, n).

Fixpoint zeros (n : nat) : string :=
  match n with
  | O => EmptyString
  | S n' => String "0" (zeros n')
  end.

(** Number::toString in radix 10. *)
Definition Number_toString (x : float) : string :=
  match Prim2SF x with
  | S754_nan => "NaN"
  | S754_zero _ => "0"
  | S754_infinity s => sign_prefix s +:+ "Infinity"
  | S754_finite sg m e =>
      let '(s, k, n) := shortest_digits (abs x) m e in
      let digits := decimal_string s in
      sign_prefix sg +:+
      (if (k <=? n) && (n <=? 21) then digits +:+ zeros (Z.to_nat (n - k))
       else if (0 <? n) && (n <=? 21) then
         substring 0 (Z.to_nat n) digits +:+ "." +:+
         substring (Z.to_nat n) (Z.to_nat (k - n)) digits
       else if (-6 <? n) && (n <=? 0) then
         "0." +:+ zeros (Z.to_nat (- n)) +:+ digits
       else
         let exponent := (if n - 1 <? 0 then "-" else "+") +:+
                         decimal_string (Z.abs (n - 1)) in
         if k =? 1 then digits +:+ "e" +:+ exponent
         else substring 0 1 digits +:+ "." +:+
              substring 1 (Z.to_nat (k - 1)) digits +:+ "e" +:+ exponent)
  end.

(** [Number.prototype.toFixed(fractionDigits)] *)
Definition toFixed (x : float) (fractionDigits : nat) : string :=
  let f := fractionDigits in
  match Prim2SF x with
  | S754_nan => "NaN"
  | S754_infinity _ => Number_toString x
  | S754_zero _ => "0" +:+ fraction_suffix (zeros f)
  | S754_finite s m e =>
      if (1e21 <=? abs x)%float then Number_toString x
      else
        let n := scaled_round m e f in
        sign_prefix s +:+ decimal_string (n / 10 ^ Z.of_nat f) +:+
        fraction_suffix (fixed_digits f (n mod 10 ^ Z.of_nat f))
  end.

(** [Number.isNaN], [Number.isInteger] and [Math.abs] *)
Definition isNaN (x : float) : bool := is_nan x.

Definition isInteger (x : float) : bool :=
  match Prim2SF x with
  | S754_zero _ => true
  | S754_finite _ m e =>
      let '(num, den) := ratio_of m e in num mod den =? 0
  | _ => false
  end.

Definition Math_abs (x : float) : float := abs x.

End JS.

(** *** Values and coercions *)

(** A field value: a scalar JSON value, or [undefined]. *)
Inductive value :=
  | VUndefined
  | VNull
  | VBool (b : bool)
  | VNum (n : float)
  | VStr (s : string).

(** [Number(v)] *)
Definition Number (v : value) : float :=
  match v with
  | VUndefined => nan
  | VNull => PrimFloat.zero
  | VBool b => if b then PrimFloat.one else PrimFloat.zero
  | VNum n => n
  | VStr s => JS.StringToNumber s
  end.

(** [String(v)] *)
Definition ToString (v : value) : string :=
  match v with
  | VUndefined => "undefined"
  | VNull => "null"
  | VBool b => if b then "true" else "false"
  | VNum n => JS.Number_toString n
  | VStr s => s
  end.

(** [v ?? d] *)
Definition nullish_or (v d : value) : value :=
  match v with
  | VUndefined | VNull => d
  | _ => v
  end.

(** [v === null || v === undefined || v === ""] *)
Definition is_blank (v : value) : bool :=
  match v with
  | VNull | VUndefined | VStr EmptyString => true
  | _ => false
  end.

(** ** The premiums page *)

(** A row of the response: a JSON object, read by field name. *)
Abbreviation PremiumRow := (gmap string value).

(** [r[key]]: the field of the row, [undefined] when the row has none of
    that name. *)
Definition get (r : PremiumRow) (key : string) : value :=
  default VUndefined (r !! key).

Definition Number_of_nat (i : nat) : float :=
  of_uint63 (Uint63.of_Z (Z.of_nat i)).

(** Use 5% steps: 0.05, 0.10, ..., 0.50 *)
Definition DELTAS : list float :=
  map (fun i => ((Number_of_nat i + 1) * 0.05)%float) (seq 0 10).

(** Sticky column widths (px) *)
Definition W_SYMBOL : Z := 86.
Definition W_UNDER : Z := 52.
Definition W_SHARES : Z := 39.
Definition STICKY_LEFT_1 : Z := 0.
Definition STICKY_LEFT_2 : Z := W_SYMBOL.
Definition STICKY_LEFT_3 : Z := W_SYMBOL + W_UNDER.
Definition STICKY_TOTAL : Z := W_SYMBOL + W_UNDER + W_SHARES.

(** Plain numeric cells: precision by magnitude. *)
Definition fmt (v : value) : string :=
  if is_blank v then ""
  else
    let n := Number v in
    if JS.isNaN n then ToString v
    else if (1000 <=? JS.Math_abs n)%float && JS.isInteger n
         then JS.toLocaleString n JS.default_maximumFractionDigits
    else if (100 <=? JS.Math_abs n)%float then JS.toLocaleString n 2
    else JS.toLocaleString n 4.

(** Currency cells. *)
Definition money (v : value) : string :=
  if is_blank v then ""
  else
    let n := Number v in
    if JS.isNaN n then ToString v
    else "$" +:+ JS.toLocaleString n 2.

(** *** Exceptions and the array store *)

Inductive error := TypeError.

Inductive result (A : Type) :=
  | Ok (x : A)
  | Throw (e : error).
Arguments Ok {A} x.
Arguments Throw {A} e.

(** Arrays are objects of the store: a variable holds a reference, and two
    variables may hold the same one. *)
Abbreviation ref := positive.
Abbreviation store := (gmap ref (list PremiumRow)).

(** A computation over the store that returns or throws. *)
Definition M (A : Type) : Type := store -> result A * store.

Definition throw {A} (e : error) : M A := fun h => (Throw e, h).

#[global] Instance M_ret : MRet M := fun A x h => (Ok x, h).
#[global] Instance M_bind : MBind M := fun A B k m h =>
  match m h with
  | (Ok x, h') => k x h'
  | (Throw e, h') => (Throw e, h')
  end.

Definition alloc (xs : list PremiumRow) : M ref :=
  fun h => let l := fresh (dom h) in (Ok l, <[l := xs]> h).

Definition read (l : ref) : M (list PremiumRow) :=
  fun h =>
    match h !! l with
    | Some xs => (Ok xs, h)
    | None => (Throw TypeError, h)
    end.

Definition write (l : ref) (xs : list PremiumRow) : M unit :=
  fun h => (Ok tt, <[l := xs]> h).

(** The elements a callback keeps, in order; the first exception of the
    callback ends the traversal. *)
Fixpoint filter_rows (pred : PremiumRow -> result bool) (xs : list PremiumRow)
  : result (list PremiumRow) :=
  match xs with
  | [] => Ok []
  | r :: xs' =>
      match pred r with
      | Throw e => Throw e
      | Ok b =>
          match filter_rows pred xs' with
          | Throw e => Throw e
          | Ok ys => Ok (if b then r :: ys else ys)
          end
      end
  end.

(** [Array.prototype.filter]: a new array. *)
Definition Array_filter (arr : ref) (pred : PremiumRow -> result bool) : M ref :=
  xs ← read arr;
  match filter_rows pred xs with
  | Ok ys => alloc ys
  | Throw e => throw e
  end.

(** [[...arr]]: a new array with the same elements. *)
Definition Array_spread (arr : ref) : M ref :=
  xs ← read arr; alloc xs.

(** Insertion of [x] in front of the sorted elements that came after it:
    [x] moves behind the elements the comparator puts strictly before it. *)
Fixpoint insert_by {A} (comparefn : A -> A -> Z) (x : A) (l : list A) : list A :=
  match l with
  | [] => [x]
  | y :: l' =>
      if comparefn x y <=? 0 then x :: l else y :: insert_by comparefn x l'
  end.

(** The order [Array.prototype.sort] gives. The sort is stable, so for a
    consistent comparator the order is the same in every implementation,
    and it is this one. For a comparator that is not consistent the
    language leaves the order to the implementation; the model is then a
    stable insertion sort, in which an element never passes one the
    comparator does not put it behind, and an engine may order the array
    otherwise (see [V8.ArrayTimSortImpl] below). *)
Definition sort_by {A} (comparefn : A -> A -> Z) (l : list A) : list A :=
  foldr (insert_by comparefn) [] l.

(** [Array.prototype.sort]: sorts the array in place and returns it. *)
Definition Array_sort (arr : ref) (comparefn : PremiumRow -> PremiumRow -> Z) : M ref :=
  xs ← read arr;
  _ ← write arr (sort_by comparefn xs);
  mret arr.

(** *** Filter + Sort *)

Inductive sort_dir := asc | desc.

(** [r.symbol?.toLowerCase().includes(q)]: a missing or null symbol ends
    the chain with [undefined], which the filter reads as false; a symbol
    that is a number or a boolean has no [toLowerCase], and the call throws. *)
Definition symbol_matches (q : string) (r : PremiumRow) : result bool :=
  match get r "symbol" with
  | VUndefined | VNull => Ok false
  | VStr s => Ok (JS.includes (JS.toLowerCase s) q)
  | VNum _ | VBool _ => Throw TypeError
  end.

(** The value a row is compared by: the Number its field coerces to, or
    the string form of the field when the coercion fails. *)
Inductive comp :=
  | CNum (n : float)
  | CStr (s : string).

Definition comp_of (v : value) : comp :=
  let n := Number v in
  if JS.isNaN n then CStr (ToString v) else CNum n.

Definition comp_number (c : comp) : float :=
  match c with
  | CNum n => n
  | CStr s => JS.StringToNumber s
  end.

(** [a < b] on comparison values: two strings compare as strings, any
    other pair as the Numbers the two sides coerce to. *)
Definition less_than (a b : comp) : bool :=
  match a, b with
  | CStr s, CStr t => JS.string_lt s t
  | _, _ => (comp_number a <? comp_number b)%float
  end.

Definition comparator (sortKey : string) (sortDir : sort_dir)
    (a b : PremiumRow) : Z :=
  let av := get a sortKey in
  let bv := get b sortKey in
  let aComp := comp_of av in
  let bComp := comp_of bv in
  if less_than aComp bComp then (match sortDir with asc => -1 | desc => 1 end)
  else if less_than bComp aComp then (match sortDir with asc => 1 | desc => -1 end)
  else 0.

(** The [filteredSorted] memo, over the store: [rows] is the array of the
    state, the result the array the memo returns. *)
Definition filteredSorted (rows : ref) (query sortKey : string)
    (sortDir : sort_dir) : M ref :=
  let q := JS.toLowerCase (JS.trim query) in
  out ← match q with
        | EmptyString => mret rows
        | _ => Array_filter rows (symbol_matches q)
        end;
  copy ← Array_spread out;
  sorted ← Array_sort copy (comparator sortKey sortDir);
  mret sorted.

(** The filter step alone, on the elements. *)
Definition filter_step (rows : list PremiumRow) (query : string)
  : result (list PremiumRow) :=
  match JS.toLowerCase (JS.trim query) with
  | EmptyString => Ok rows
  | q => filter_rows (symbol_matches q) rows
  end.

(** The elements of the array [filteredSorted] returns. *)
Definition visibleRows (rows : list PremiumRow) (query sortKey : string)
    (sortDir : sort_dir) : result (list PremiumRow) :=
  match filter_step rows query with
  | Ok out => Ok (sort_by (comparator sortKey sortDir) out)
  | Throw e => Throw e
  end.

(** [toggleSort] on the sort state. *)
Definition toggleSort (key : string) (st : string * sort_dir) : string * sort_dir :=
  let '(sortKey, sortDir) := st in
  if String.eqb sortKey key
  then (sortKey, match sortDir with asc => desc | desc => asc end)
  else (key, asc).

(** *** Totals per delta (sum of NET across all rows) *)

(** [totals[k] += val]: reads the property, [undefined] (so a NaN sum) when
    it is not there, and writes the sum back. *)
Definition add_to (k : string) (val : float) (totals : gmap string float)
  : gmap string float :=
  <[k := (default nan (totals !! k) + val)%float]> totals.

Definition net_key (d : float) : string := JS.toFixed d 2 +:+ "N".

(** The body of the inner loop, for the row [r] and the step [d]. *)
Definition add_net (r : PremiumRow) (totals : gmap string float) (d : float)
  : gmap string float :=
  let val := Number (nullish_or (get r (net_key d)) (VNum 0)) in
  if negb (JS.isNaN val) then add_to (JS.toFixed d 2) val totals else totals.

Definition zero_totals : gmap string float :=
  foldl (fun totals d => <[JS.toFixed d 2 := 0%float]> totals) ∅ DELTAS.

Definition netTotalsByDelta (filteredSorted : list PremiumRow)
  : gmap string float :=
  foldl (fun totals r => foldl (add_net r) totals DELTAS)
        zero_totals filteredSorted.

(** The totals cell of the group [d]:
    [money(netTotalsByDelta[d.toFixed(2)] ?? 0)]. *)
Definition totals_cell (totals : gmap string float) (d : float) : string :=
  money (match totals !! JS.toFixed d 2 with
         | Some x => VNum x
         | None => VNum 0
         end).

(** *** The page state and the auto-scroll effect *)

(** The four [useState] cells of [Page]. *)
Record state := {
  st_rows : list PremiumRow;
  st_query : string;
  st_sortKey : string;
  st_sortDir : sort_dir;
}.

Definition initial : state :=
  {| st_rows := []; st_query := ""; st_sortKey := "symbol"; st_sortDir := asc |}.

(** What the fetch of the mount effect resolves to. *)
Inductive response :=
  | Rows (data : list PremiumRow)
  | NotAnArray
  | Failed.

(** [setRows(Array.isArray(data) ? data : [])], and [setRows([])] on failure. *)
Definition received (r : response) : list PremiumRow :=
  match r with
  | Rows data => data
  | NotAnArray | Failed => []
  end.

(** What happens to a mounted page: the fetch settles, the user edits the
    filter, the user clicks a header. *)
Inductive event :=
  | Fetched (r : response)
  | QueryInput (text : string)
  | HeaderClick (key : string).

Definition handle (e : event) (s : state) : state :=
  match e with
  | Fetched r =>
      {| st_rows := received r; st_query := st_query s;
         st_sortKey := st_sortKey s; st_sortDir := st_sortDir s |}
  | QueryInput text =>
      {| st_rows := st_rows s; st_query := text;
         st_sortKey := st_sortKey s; st_sortDir := st_sortDir s |}
  | HeaderClick key =>
      let '(k, d) := toggleSort key (st_sortKey s, st_sortDir s) in
      {| st_rows := st_rows s; st_query := st_query s;
         st_sortKey := k; st_sortDir := d |}
  end.

Definition is_user_event (e : event) : bool :=
  match e with
  | Fetched _ => false
  | QueryInput _ | HeaderClick _ => true
  end.

(** The group header cells, by their [data-delta] attribute, and
    [querySelector('th[data-delta="..."]')] over them. *)
Definition group_headers : list string := map (fun d => JS.toFixed d 2) DELTAS.

Definition querySelector (delta : string) : option string :=
  List.find (String.eqb delta) group_headers.

Section AutoScroll.

(** The layout: [offsetLeft] of the group header with a given attribute. *)
Variable offsetLeft : string -> Z.

(** The body of the effect: the [scrollTo] it asks for, if any. The scroll
    container is rendered with every render, so its ref is never null. *)
Definition auto_scroll (s : state) : option Z :=
  if Nat.eqb (length (st_rows s)) 0 then None
  else match querySelector "0.15" with
       | None => None
       | Some target => Some (Z.max 0 (offsetLeft target - STICKY_TOTAL - 8))
       end.

(** A committed render: the state, the dependency [rows.length] the effect
    last ran with, and the [scrollTo] calls so far, oldest first. *)
Record view := {
  v_state : state;
  v_deps : option nat;
  v_scrolls : list Z;
}.

(** After a render an effect runs on mount and whenever its dependency
    differs from the one of its last run. *)
Definition commit (previous : option nat) (scrolls : list Z) (s : state) : view :=
  let len := length (st_rows s) in
  let changed := match previous with
                 | None => true
                 | Some n => negb (Nat.eqb n len)
                 end in
  if changed then
    {| v_state := s; v_deps := Some len;
       v_scrolls := scrolls ++ match auto_scroll s with
                               | Some x => [x]
                               | None => []
                               end |}
  else {| v_state := s; v_deps := previous; v_scrolls := scrolls |}.

Definition mount : view := commit None [] initial.

Definition step (v : view) (e : event) : view :=
  commit (v_deps v) (v_scrolls v) (handle e (v_state v)).

Definition run (es : list event) : view := foldl step mount es.

End AutoScroll.

(** ** The identity panel *)

(** [encodeURIComponent]: the unreserved characters stand for themselves,
    every other octet of the UTF-8 form is escaped as a percent sign and two
    upper-case hexadecimal digits. (It throws on a string with a lone
    surrogate, which has no UTF-8 form and so is no string of the model; the
    effect catches that and keeps the initial redirect.) *)
Definition is_unreserved (c : ascii) : bool :=
  let n := N_of_ascii c in
  ((65 <=? n) && (n <=? 90) || (97 <=? n) && (n <=? 122) ||
   (48 <=? n) && (n <=? 57) ||
   (n =? 45) || (n =? 95) || (n =? 46) || (n =? 33) || (n =? 126) ||
   (n =? 42) || (n =? 39) || (n =? 40) || (n =? 41))%N.

Definition hex_char (d : N) : ascii :=
  if (d <? 10)%N then ascii_of_N (48 + d) else ascii_of_N (55 + d).

Fixpoint encodeURIComponent (s : string) : string :=
  match s with
  | EmptyString => EmptyString
  | String c s' =>
      if is_unreserved c then String c (encodeURIComponent s')
      else
        let n := N_of_ascii c in
        String "%" (String (hex_char (n / 16)) (String (hex_char (n mod 16))
          (encodeURIComponent s')))
  end.

(** The redirect of the sign-in link: ["/"] on the server and on the first
    client render, the encoded address of the page once the effect ran. *)
Definition initial_redir : string := "/".

Definition hydrated_redir (href : string) : string := encodeURIComponent href.

(** The [href] of the sign-in link. *)
Definition login_href (redir : string) : string :=
  "/.auth/login/aadb2c?post_login_redirect_uri=" +:+ redir.

(** ** The body rows *)

(** [r.symbol + i], the key of the [i]-th body row. With a string on the
    left the index is appended as a string: an array index is an integer
    below 2^32 and Number::toString of such a Number is its decimal digits.
    With anything else on the left the two are added as Numbers, and React
    takes the string of the sum. *)
Definition row_key (r : PremiumRow) (i : nat) : string :=
  match get r "symbol" with
  | VStr s => s +:+ JS.decimal_string (Z.of_nat i)
  | v => JS.Number_toString (Number v + Number_of_nat i)
  end.

(** The keys of [filteredSorted.map((r, i) => ...)]. *)
Definition row_keys (filteredSorted : list PremiumRow) : list string :=
  imap (fun i r => row_key r i) filteredSorted.

(** ** The sort as the V8 engine runs it *)

(** For a comparator that is not consistent the language leaves the order
    of [Array.prototype.sort] to the implementation. V8 (Node, Chrome) sorts
    with TimSort; an array of fewer than 64 elements is one run: its sorted
    or strictly descending prefix is found (and reversed when descending),
    and the elements after it are put in place by binary insertion. The
    names are those of V8's [array-sort.tq]; [low] is always 0 here. *)
Module V8.
Section Sort.

Context {A : Type}.
Variable comparefn : A -> A -> Z.

(** The loop of [CountAndMakeRun]: how many more elements extend the run
    that ends in [previousElement]. *)
Fixpoint run_extends (isDescending : bool) (previousElement : A) (rest : list A)
  : nat :=
  match rest with
  | [] => O
  | currentElement :: rest' =>
      let order := comparefn currentElement previousElement in
      if (if isDescending then 0 <=? order else order <? 0) then O
      else S (run_extends isDescending currentElement rest')
  end.

(** [CountAndMakeRun(0, length)]: the length of the run the array starts
    with, and the array with that run reversed when it was descending. *)
Definition CountAndMakeRun (workArray : list A) : nat * list A :=
  match workArray with
  | elementHigh :: elementLow :: rest =>
      let isDescending := comparefn elementLow elementHigh <? 0 in
      let runLength := (2 + run_extends isDescending elementLow rest)%nat in
      (runLength,
       if isDescending
       then reverse (take runLength workArray) ++ drop runLength workArray
       else workArray)
  | _ => (length workArray, workArray)
  end.

(** The binary search of [BinaryInsertionSort]: where [pivot] belongs in
    the sorted elements between [left] and [right]. *)
Fixpoint insertion_point (fuel : nat) (workArray : list A) (pivot : A)
    (left right : nat) : nat :=
  match fuel with
  | O => left
  | S fuel' =>
      if (left <? right)%nat then
        let mid := (left + (right - left) / 2)%nat in
        match workArray !! mid with
        | Some x =>
            if comparefn pivot x <? 0
            then insertion_point fuel' workArray pivot left mid
            else insertion_point fuel' workArray pivot (S mid) right
        | None => left
        end
      else left
  end.

(** The elements from [left] up to [start] move one place up and [pivot],
    which stood at [start], goes to [left]. *)
Definition move_pivot (workArray : list A) (pivot : A) (left start : nat) : list A :=
  take left workArray ++
  pivot :: take (start - left) (drop left workArray) ++ drop (S start) workArray.

(** The outer loop of [BinaryInsertionSort], for the [n] elements from
    [start] on. *)
Fixpoint insert_from (n : nat) (workArray : list A) (low start : nat) : list A :=
  match n with
  | O => workArray
  | S n' =>
      match workArray !! start with
      | Some pivot =>
          let left := insertion_point start workArray pivot low start in
          insert_from n' (move_pivot workArray pivot left start) low (S start)
      | None => workArray
      end
  end.

Definition BinaryInsertionSort (workArray : list A) (low startArg high : nat)
  : list A :=
  let start := if Nat.eqb low startArg then S startArg else startArg in
  insert_from (high - start) workArray low start.

(** [ArrayTimSortImpl] on fewer than 64 elements, where the minimum run
    length is the length of the array; [None] on a longer array, whose runs
    are merged, which is not modelled. *)
Definition ArrayTimSortImpl (workArray : list A) : option (list A) :=
  let length := length workArray in
  if (length <? 2)%nat then Some workArray
  else if (64 <=? length)%nat then None
  else
    let '(currentRunLength, workArray') := CountAndMakeRun workArray in
    Some (if (currentRunLength <? length)%nat
          then BinaryInsertionSort workArray' 0 currentRunLength length
          else workArray').

End Sort.
End V8.

(** The elements of the array [filteredSorted] returns when V8 sorts it. *)
Definition visibleRows_V8 (rows : list PremiumRow) (query sortKey : string)
    (sortDir : sort_dir) : result (option (list PremiumRow)) :=
  match filter_step rows query with
  | Ok out => Ok (V8.ArrayTimSortImpl (comparator sortKey sortDir) out)
  | Throw e => Throw e
  end.

(** ** Specification predicates *)

(** [out] shows a number in en-US with at most [f] fraction digits: a
    sign, grouped integer digits and a fraction without trailing zeros. *)
Definition shows_at_most (f : nat) (out : string) : Prop :=
  exists neg ip fp,
    out = JS.render neg ip fp /\
    (String.length fp <= f)%nat /\
    JS.strip_trailing_zeros fp = fp.


(** The two rows of the end-to-end example of the specification. *)
Definition example_rows : list PremiumRow :=
  [ {[ "symbol" := VStr "AAA"; "0.15N" := VNum 10 ]};
    {[ "symbol" := VStr "BBB"; "0.15N" := VNum 25 ]} ].

(** [q] occurs in [s]. *)
Definition substring_of (q s : string) : Prop :=
  exists pre post, s = pre +:+ q +:+ post.

(** [q] occurs in [s] when case is ignored. *)
Definition contains_ci (s q : string) : Prop :=
  substring_of (JS.toLowerCase q) (JS.toLowerCase s).

(** The symbol of the row is a string, or the row has none (the field is
    absent or null): what the type [PremiumRow] and the optional chaining
    of the filter allow for. *)
Definition symbol_ok (r : PremiumRow) : Prop :=
  match get r "symbol" with
  | VNum _ | VBool _ => False
  | VUndefined | VNull | VStr _ => True
  end.

(** The symbol of the row is a string in which [q] occurs, case ignored. *)
Definition symbol_contains (q : string) (r : PremiumRow) : Prop :=
  exists s, get r "symbol" = VStr s /\ contains_ci s q.

(** Whether the filter keeps a row, from the value of its symbol field:
    the lower-cased symbol includes the lower-cased query [q]. *)
Definition keeps (q : string) (symbol : value) : bool :=
  match symbol with
  | VStr s => JS.includes (JS.toLowerCase s) q
  | _ => false
  end.

Fixpoint all_whitespace (s : string) : bool :=
  match s with
  | EmptyString => true
  | String c s' => JS.is_whitespace c && all_whitespace s'
  end.

(** The value a row is compared by under a sort key. *)
Definition key (sortKey : string) (r : PremiumRow) : comp :=
  comp_of (get r sortKey).

Definition is_number (c : comp) : bool :=
  match c with
  | CNum _ => true
  | CStr _ => false
  end.

(** The rows are compared by Numbers only, or by strings only. *)
Definition uniform_column (sortKey : string) (rows : list PremiumRow) : Prop :=
  Forall (fun r => is_number (key sortKey r) = true) rows \/
  Forall (fun r => is_number (key sortKey r) = false) rows.

(** One side is compared by a Number and the other by a string. *)
Definition mixed (a b : comp) : Prop := is_number a <> is_number b.

(** An occurrence of [x] comes before an occurrence of [y] in [l]. *)
Definition before {A} (x y : A) (l : list A) : Prop :=
  exists l1 l2 l3, l = l1 ++ x :: l2 ++ y :: l3.

(** A Shares column that mixes Numbers and a string that is not numeric. *)
Definition mixed_rows : list PremiumRow :=
  [ {[ "symbol" := VStr "AAA"; "Shares" := VNum 2 ]};
    {[ "symbol" := VStr "BBB"; "Shares" := VStr "n/a" ]};
    {[ "symbol" := VStr "CCC"; "Shares" := VNum 1 ]} ].

(** The canonical key of a delta step in the totals. *)
Definition delta_key (d : float) : string := JS.toFixed d 2.

(** The ten keys of the totals. *)
Definition delta_keys : list string :=
  ["0.05"; "0.10"; "0.15"; "0.20"; "0.25"; "0.30"; "0.35"; "0.40"; "0.45"; "0.50"].

(** The Number read from the net field of a row for a step:
    [Number(r[key] ?? 0)]. *)
Definition net_value (r : PremiumRow) (d : float) : float :=
  Number (nullish_or (get r (net_key d)) (VNum 0)).

(** The net field of the row for the step is missing (absent or null). *)
Definition net_missing (r : PremiumRow) (d : float) : Prop :=
  get r (net_key d) = VUndefined \/ get r (net_key d) = VNull.

(** The Numbers the rows add to the sum of a step, in order: the net
    values that are not NaN. *)
Definition contributions (d : float) (rows : list PremiumRow) : list float :=
  List.filter (fun x => negb (JS.isNaN x)) (map (fun r => net_value r d) rows).

(** The running sum, left to right. *)
Definition running_sum (start : float) (xs : list float) : float :=
  foldl (fun a x => (a + x)%float) start xs.

(** Three rows with nets 0.1, 0.2 and 0.3 in the first group. *)
Definition tenths : list PremiumRow :=
  [ {[ "symbol" := VStr "AAA"; "0.05N" := VNum 0.1 ]};
    {[ "symbol" := VStr "BBB"; "0.05N" := VNum 0.2 ]};
    {[ "symbol" := VStr "CCC"; "0.05N" := VNum 0.3 ]} ].

(** What one step of the inner loop makes of the sum of its key. *)
Definition step_value (r : PremiumRow) (d : float) (old : option float)
  : option float :=
  if negb (JS.isNaN (net_value r d))
  then Some (default nan old + net_value r d)%float
  else old.

(** The third delta step, [3 * 0.05], as a Number. *)
Definition delta_015 : float := 0.15000000000000002.

(** The effect last ran with the length of the rows of the state. *)
Definition deps_current (v : view) : Prop :=
  v_deps v = Some (length (st_rows (v_state v))).

(** The three frozen columns, the ones whose headers sort. *)
Definition frozen_keys : list string := ["symbol"; "UnderlyingPrice"; "Shares"].

(** Every click on a header is a click on a frozen column. *)
Definition clicks_frozen (es : list event) : Prop :=
  Forall (fun e => match e with
                   | HeaderClick key => key ∈ frozen_keys
                   | _ => True
                   end) es.

(** The number of times the fetch settled. *)
Definition fetches (es : list event) : nat :=
  length (List.filter (fun e => negb (is_user_event e)) es).

(** No two of the rows tie under the sort key: of two rows at different
    places, one is less than the other. *)
Definition distinct_keys (sortKey : string) (rows : list PremiumRow) : Prop :=
  forall i j a b, rows !! i = Some a -> rows !! j = Some b -> i <> j ->
    less_than (key sortKey a) (key sortKey b) = true \/
    less_than (key sortKey b) (key sortKey a) = true.

(** The two row sets have the same net fields, row by row. *)
Definition same_nets (xs ys : list PremiumRow) : Prop :=
  Forall2 (fun x y => forall d, d ∈ DELTAS -> get x (net_key d) = get y (net_key d))
          xs ys.

(** The characters [encodeURIComponent] writes: unreserved ones, the
    percent sign and hexadecimal digits. *)
Definition is_uri_safe (c : ascii) : bool :=
  is_unreserved c || Ascii.eqb c "%".

Fixpoint all_chars (p : ascii -> bool) (s : string) : bool :=
  match s with
  | EmptyString => true
  | String c s' => p c && all_chars p s'
  end.

(** Reads back what [encodeURIComponent] wrote. *)
Definition hex_val (c : ascii) : N :=
  let n := N_of_ascii c in
  if (n <? 58)%N then n - 48 else n - 55.

Fixpoint unescape (s : string) : string :=
  match s with
  | EmptyString => EmptyString
  | String c s' =>
      if Ascii.eqb c "%" then
        match s' with
        | String a (String b s'') =>
            String (ascii_of_N (hex_val a * 16 + hex_val b)) (unescape s'')
        | _ => s
        end
      else String c (unescape s')
  end.

(** The characters that delimit the parts of an address or of its query. *)
Definition query_delimiters : list ascii :=
  ["&"; "="; "#"; "?"; "/"; ":"; "+"; " "]%char.

Fixpoint occurs (c : ascii) (s : string) : bool :=
  match s with
  | EmptyString => false
  | String c' s' => Ascii.eqb c c' || occurs c s'
  end.

Definition is_digit (c : ascii) : bool :=
  let n := N_of_ascii c in ((48 <=? n) && (n <=? 57))%N.

(** The last character of the string is a decimal digit. *)
Fixpoint ends_in_digit (s : string) : bool :=
  match s with
  | EmptyString => false
  | String c s' =>
      match s' with
      | EmptyString => is_digit c
      | String _ _ => ends_in_digit s'
      end
  end.

(** The symbol of every row is a string that does not end in a digit. *)
Definition plain_symbols (rows : list PremiumRow) : Prop :=
  forall r, r ∈ rows ->
    exists s, get r "symbol" = VStr s /\ ends_in_digit s = false.

(** The number a string of decimal digits stands for, after [acc]. *)
Fixpoint decimal_value (acc : Z) (s : string) : Z :=
  match s with
  | EmptyString => acc
  | String c s' => decimal_value (acc * 10 + JS.digit_val c) s'
  end.

(** Every character of the string is an ASCII one. On such a string
    [JS.trim] and [JS.toLowerCase] are the functions of the language; beyond
    ASCII the language also trims Unicode white space, and lowers a capital
    sigma by its place in the word. *)
Definition ascii_only (s : string) : bool :=
  all_chars (fun c => (N_of_ascii c <? 128)%N) s.

(** Every two of the rows tie under the comparator. *)
Definition all_tie (sortKey : string) (sortDir : sort_dir) (rows : list PremiumRow)
  : Prop :=
  forall a b, a ∈ rows -> b ∈ rows -> comparator sortKey sortDir a b = 0.

(** A Shares column in which a string that is not numeric stands between
    Numbers that are out of order. *)
Definition unsorted_mixed_rows : list PremiumRow :=
  [ {[ "symbol" := VStr "AAA"; "Shares" := VNum 2 ]};
    {[ "symbol" := VStr "BBB"; "Shares" := VNum 1 ]};
    {[ "symbol" := VStr "CCC"; "Shares" := VStr "x" ]};
    {[ "symbol" := VStr "DDD"; "Shares" := VNum 0 ]} ].
(** ** Properties of the formatters *)

Lemma string_length_app (s t : string) :
  String.length (s +:+ t) = (String.length s + String.length t)%nat.
Proof. induction s as [|c s IH]; [reflexivity | simpl; congruence]. Qed.

Lemma string_app_empty (s : string) : s +:+ "" = s.
Proof.
  induction s as [|c s IH]; [reflexivity|].
  change (String c (s +:+ "") = String c s). now rewrite IH.
Qed.

Lemma fixed_digits_length (f : nat) (n : Z) :
  String.length (JS.fixed_digits f n) = f.
Proof.
  revert n. induction f as [|f IH]; intros n; simpl; [reflexivity|].
  rewrite string_length_app, IH. simpl. lia.
Qed.

Lemma strip_trailing_zeros_length (s : string) :
  (String.length (JS.strip_trailing_zeros s) <= String.length s)%nat.
Proof.
  induction s as [|c s IH]; simpl; [lia|].
  destruct (JS.strip_trailing_zeros s) as [|d t].
  - destruct (Ascii.eqb c "0"); simpl; lia.
  - simpl in *. lia.
Qed.

Lemma strip_trailing_zeros_idem (s : string) :
  JS.strip_trailing_zeros (JS.strip_trailing_zeros s) = JS.strip_trailing_zeros s.
Proof.
  induction s as [|c s IH]; simpl; [reflexivity|].
  destruct (JS.strip_trailing_zeros s) as [|d t] eqn:E.
  - destruct (Ascii.eqb c "0") eqn:Ec; simpl; [reflexivity | now rewrite Ec].
  - simpl. simpl in IH. now rewrite IH.
Qed.

Lemma Prim2SF_not_nan (x : float) : is_nan x = false -> Prim2SF x <> S754_nan.
Proof.
  intros H. unfold Prim2SF. rewrite H.
  destruct (PrimFloat.is_zero x); [discriminate|].
  destruct (is_infinity x); [discriminate|].
  destruct (Z.frexp x) as [r ex].
  destruct (shr_fexp _ _ _ _ _) as [shr e'].
  destruct (shr_m shr); discriminate.
Qed.

(** Whatever the Number, as long as it is one, [toLocaleString] with a
    maximum of [f] fraction digits shows at most [f] of them. *)
Lemma toLocaleString_shows (x : float) (f : nat) :
  JS.isNaN x = false -> shows_at_most f (JS.toLocaleString x f).
Proof.
  intros Hnan. apply Prim2SF_not_nan in Hnan.
  unfold JS.toLocaleString, shows_at_most.
  destruct (Prim2SF x) as [s|s| |s m e]; [| |congruence|].
  - exists s, "0", "". split; [reflexivity | split; [simpl; lia | reflexivity]].
  - exists s, "∞", "". split; [| split; [simpl; lia | reflexivity]].
    destruct s; reflexivity.
  - eexists s, _, _. split; [reflexivity|]. split.
    + etransitivity; [apply strip_trailing_zeros_length|].
      now rewrite fixed_digits_length.
    + apply strip_trailing_zeros_idem.
Qed.

Lemma fixed_digits_zero (f : nat) : JS.fixed_digits f 0 = JS.zeros f.
Proof.
  induction f as [|f IH]; [reflexivity|].
  change (JS.fixed_digits f (0 / 10) +:+ String (JS.digit_char (0 mod 10)) "" =
          JS.zeros (S f)).
  change (0 / 10) with 0. rewrite IH.
  clear IH. induction f as [|f IH]; [reflexivity|].
  change (String "0" (JS.zeros f +:+ String (JS.digit_char (0 mod 10)) "") =
          String "0" (JS.zeros (S f))).
  now rewrite IH.
Qed.

Lemma strip_trailing_zeros_zeros (f : nat) :
  JS.strip_trailing_zeros (JS.zeros f) = "".
Proof. induction f as [|f IH]; simpl; [reflexivity | now rewrite IH]. Qed.

Lemma ratio_of_pos (m : positive) (e num den : Z) :
  JS.ratio_of m e = (num, den) -> 0 < num /\ 0 < den.
Proof.
  unfold JS.ratio_of. destruct e as [|k|k]; intros [= <- <-].
  - lia.
  - split; [|lia]. apply Z.mul_pos_pos; [lia|]. apply Z.pow_pos_nonneg; lia.
  - split; [lia|]. apply Z.pow_pos_nonneg; lia.
Qed.

(** [round_half_up] returns a nearest integer. *)
Lemma round_half_up_nearest (num den : Z) :
  0 <= num -> 0 < den ->
  2 * Z.abs (JS.round_half_up num den * den - num) <= den.
Proof.
  intros Hn Hd. unfold JS.round_half_up.
  pose proof (Z.div_mod (2 * num + den) (2 * den) ltac:(lia)) as Hdm.
  pose proof (Z.mod_pos_bound (2 * num + den) (2 * den) ltac:(lia)) as Hb.
  set (q := (2 * num + den) / (2 * den)) in *.
  set (r := (2 * num + den) mod (2 * den)) in *.
  assert (2 * (q * den - num) = den - r) as Heq by lia.
  lia.
Qed.

(** The Number [x * 10 ^ f] of an integral Number ends in [f] zeros. *)
Lemma round_half_up_integral (num den k : Z) :
  0 < den -> 0 < k -> num mod den = 0 ->
  JS.round_half_up (num * k) den mod k = 0.
Proof.
  intros Hd Hk Hm. unfold JS.round_half_up.
  apply Z.mod_divide in Hm as [q ->]; [|lia].
  replace (2 * (q * den * k) + den) with (den + (q * k) * (2 * den)) by lia.
  rewrite Z.div_add by lia. rewrite (Z.div_small den (2 * den)) by lia.
  rewrite Z.add_0_l. apply Z.mod_mul. lia.
Qed.

(** The digits [toLocaleString] shows for a finite Number are those of an
    integer nearest to the Number scaled by [10 ^ f]. *)
Lemma toLocaleString_rounds (x : float) (f : nat) (s : bool) (m : positive)
    (e num den : Z) :
  Prim2SF x = S754_finite s m e -> JS.ratio_of m e = (num, den) ->
  exists n,
    2 * Z.abs (n * den - num * 10 ^ Z.of_nat f) <= den /\
    JS.toLocaleString x f =
      JS.render s (JS.decimal_string (n / 10 ^ Z.of_nat f))
        (JS.strip_trailing_zeros (JS.fixed_digits f (n mod 10 ^ Z.of_nat f))).
Proof.
  intros Hx Hr. unfold JS.toLocaleString, JS.scaled_round. rewrite Hx, Hr.
  apply ratio_of_pos in Hr as [Hn Hd].
  eexists. split; [|reflexivity].
  apply round_half_up_nearest; [|assumption].
  apply Z.mul_nonneg_nonneg; [lia|]. apply Z.pow_nonneg. lia.
Qed.

(** An integral Number is shown without fraction digits, whatever the
    maximum. *)
Lemma toLocaleString_integer (x : float) (f : nat) :
  JS.isInteger x = true -> shows_at_most 0 (JS.toLocaleString x f).
Proof.
  unfold JS.isInteger, JS.toLocaleString, shows_at_most.
  destruct (Prim2SF x) as [s|s| |s m e]; try discriminate.
  - intros _. exists s, "0", "". split; [reflexivity | split; [simpl; lia | reflexivity]].
  - unfold JS.scaled_round.
    destruct (JS.ratio_of m e) as [num den] eqn:Er. intros Hi%Z.eqb_eq.
    apply ratio_of_pos in Er as [Hn Hd].
    rewrite round_half_up_integral; [| lia | apply Z.pow_pos_nonneg; lia | assumption].
    rewrite fixed_digits_zero, strip_trailing_zeros_zeros.
    eexists s, _, "". split; [reflexivity | split; [simpl; lia | reflexivity]].
Qed.

(** C6: [fmt] is empty on null, undefined and the empty string; gives the
    string form of the input, unchanged for a string, when the coercion to
    a Number fails; and shows a Number by magnitude tier: no fraction digits
    when it is integral and at least 1000 in magnitude, at most 2 when it is
    at least 100 in magnitude, at most 4 otherwise; with the five examples
    of the specification. *)
Theorem fmt_tiers :
  fmt VNull = "" /\ fmt VUndefined = "" /\ fmt (VStr "") = "" /\
  (forall v, is_blank v = false -> JS.isNaN (Number v) = true ->
             fmt v = ToString v) /\
  (forall s, ToString (VStr s) = s) /\
  (forall v n, is_blank v = false -> Number v = n -> JS.isNaN n = false ->
     if (1000 <=? JS.Math_abs n)%float && JS.isInteger n
     then fmt v = JS.toLocaleString n JS.default_maximumFractionDigits /\
          shows_at_most 0 (fmt v)
     else if (100 <=? JS.Math_abs n)%float
     then fmt v = JS.toLocaleString n 2 /\ shows_at_most 2 (fmt v)
     else fmt v = JS.toLocaleString n 4 /\ shows_at_most 4 (fmt v)) /\
  fmt (VStr "abc") = "abc" /\
  fmt (VNum 1500) = "1,500" /\
  fmt (VNum 150.2) = "150.2" /\
  fmt (VNum 1.23456) = "1.2346".
Proof.
  repeat match goal with |- _ /\ _ => split end;
    try match goal with |- forall _, _ => idtac | _ => vm_compute; reflexivity end.
  - intros v Hb Hn. unfold fmt. now rewrite Hb, Hn.
  - reflexivity.
  - intros v n Hb <- Hn. unfold fmt. rewrite Hb, Hn.
    destruct ((1000 <=? JS.Math_abs (Number v))%float && JS.isInteger (Number v))
      eqn:E1.
    + split; [reflexivity|]. apply andb_true_iff in E1 as [_ Hi].
      now apply toLocaleString_integer.
    + destruct (100 <=? JS.Math_abs (Number v))%float;
        (split; [reflexivity | now apply toLocaleString_shows]).
Qed.

Lemma fmt_tiers_witness :
  fmt (VStr "12px") = "12px" /\
  fmt (VStr "2500") = "2,500" /\ shows_at_most 0 (fmt (VStr "2500")).
Proof.
  pose proof fmt_tiers as (_ & _ & _ & Hfail & _ & Htier & _).
  split.
  - rewrite (Hfail (VStr "12px")); vm_compute; reflexivity.
  - specialize (Htier (VStr "2500") 2500%float).
    assert (is_blank (VStr "2500") = false) as Hb by reflexivity.
    assert (Number (VStr "2500") = 2500%float) as Hn by (vm_compute; reflexivity).
    assert (JS.isNaN 2500 = false) as Hv by (vm_compute; reflexivity).
    specialize (Htier Hb Hn Hv).
    replace ((1000 <=? JS.Math_abs 2500)%float && JS.isInteger 2500) with true
      in Htier by (vm_compute; reflexivity).
    destruct Htier as [Heq Hshow]. split; [|exact Hshow].
    rewrite Heq. vm_compute. reflexivity.
Defined.

(** C1 (as stated, refuted): [money] does not pad the fraction to two
    digits: 1234.5 is shown as "$1,234.5", and the totals cell of the group
    whose net sum is 35 as "$35". *)
Lemma money_does_not_pad :
  money (VNum 1234.5) = "$1,234.5" /\
  money (VNum 1234.5) <> "$1,234.50" /\
  (exists vis, visibleRows example_rows "" "symbol" asc = Ok vis /\
     netTotalsByDelta vis !! "0.15" = Some 35%float /\
     map (totals_cell (netTotalsByDelta vis)) DELTAS =
       ["$0"; "$0"; "$35"; "$0"; "$0"; "$0"; "$0"; "$0"; "$0"; "$0"] /\
     map (totals_cell (netTotalsByDelta vis)) DELTAS <>
       ["$0.00"; "$0.00"; "$35.00"; "$0.00"; "$0.00"; "$0.00"; "$0.00";
        "$0.00"; "$0.00"; "$0.00"]).
Proof.
  split; [vm_compute; reflexivity|].
  split; [vm_compute; discriminate|].
  exists example_rows. split; [vm_compute; reflexivity|].
  split; [vm_compute; reflexivity|].
  split; [vm_compute; reflexivity | vm_compute; discriminate].
Qed.

(** C1 (amended): for every input other than null, undefined and the empty
    string that coerces to a valid number, [money] is the currency symbol
    followed by the number shown with at most 2 fraction digits, trailing
    zeros dropped; [money(1234.5)] is "$1,234.5", [money(null)] is empty, and
    the totals cell of a group whose net sum is 35 shows "$35". *)
Theorem money_shows_currency :
  (forall v, is_blank v = false -> JS.isNaN (Number v) = false ->
     money v = "$" +:+ JS.toLocaleString (Number v) 2 /\
     shows_at_most 2 (JS.toLocaleString (Number v) 2)) /\
  money (VNum 1234.5) = "$1,234.5" /\
  money VNull = "" /\
  (forall (totals : gmap string float) d,
     totals !! JS.toFixed d 2 = Some 35%float -> totals_cell totals d = "$35").
Proof.
  split; [|split; [|split]].
  - intros v Hb Hn. unfold money. rewrite Hb, Hn.
    split; [reflexivity | now apply toLocaleString_shows].
  - vm_compute; reflexivity.
  - reflexivity.
  - intros totals d H. unfold totals_cell. rewrite H. vm_compute; reflexivity.
Qed.

Lemma money_shows_currency_witness :
  money (VStr "12.345") = "$12.35" /\
  totals_cell {[ "0.15" := 35%float ]} delta_015 = "$35".
Proof.
  pose proof money_shows_currency as (Hnum & _ & _ & Hcell).
  split.
  - destruct (Hnum (VStr "12.345")) as [Heq _];
      [reflexivity | vm_compute; reflexivity |].
    rewrite Heq. vm_compute. reflexivity.
  - apply Hcell. vm_compute. reflexivity.
Defined.

(** ** Properties of the filter *)

Lemma starts_with_spec (p s : string) :
  JS.starts_with p s = true <-> exists post, s = p +:+ post.
Proof.
  revert s. induction p as [|a p IH]; intros s; simpl.
  - split; [intros _; now exists s | reflexivity].
  - destruct s as [|b s].
    + split; [discriminate | intros [post H]; discriminate H].
    + destruct (Ascii.eqb_spec a b) as [->|Hne].
      * rewrite IH. split; intros [post H]; exists post.
        -- change (String b s = String b (p +:+ post)). now rewrite H.
        -- change (String b s = String b (p +:+ post)) in H. congruence.
      * split; [discriminate|]. intros [post H].
        change (String b s = String a (p +:+ post)) in H. congruence.
Qed.

(** [includes] decides the occurrence of a substring. *)
Lemma includes_spec (s q : string) :
  JS.includes s q = true <-> substring_of q s.
Proof.
  unfold substring_of. induction s as [|c s IH].
  - simpl. rewrite orb_false_r, starts_with_spec. split.
    + intros [post H]. now exists "", post.
    + intros ([|a pre] & post & H).
      * now exists post.
      * discriminate H.
  - change (JS.includes (String c s) q)
      with (JS.starts_with q (String c s) || JS.includes s q).
    rewrite orb_true_iff, starts_with_spec, IH. split.
    + intros [[post H] | (pre & post & H)].
      * now exists "", post.
      * exists (String c pre), post.
        change (String c s = String c (pre +:+ q +:+ post)). now rewrite H.
    + intros ([|a pre] & post & H).
      * left. now exists post.
      * right. exists pre, post.
        change (String c s = String a (pre +:+ q +:+ post)) in H. congruence.
Qed.

Lemma toLowerCase_empty (s : string) : JS.toLowerCase s = "" <-> s = "".
Proof. destruct s; simpl; split; congruence. Qed.

Lemma trim_end_empty (s : string) :
  JS.trim_end s = "" <-> all_whitespace s = true.
Proof.
  induction s as [|c s IH]; simpl; [tauto|].
  destruct (JS.trim_end s) as [|d t].
  - destruct (JS.is_whitespace c); simpl.
    + rewrite <- IH. tauto.
    + split; discriminate.
  - rewrite andb_true_iff, <- IH. split; [discriminate | intros [_ H]; discriminate H].
Qed.

(** A query trims to the empty string exactly when it is empty or made of
    white space only. *)
Lemma trim_empty (s : string) : JS.trim s = "" <-> all_whitespace s = true.
Proof.
  unfold JS.trim. induction s as [|c s IH]; simpl; [tauto|].
  destruct (JS.is_whitespace c) eqn:Ec; simpl.
  - exact IH.
  - destruct (JS.trim_end s); rewrite ?Ec; split; discriminate.
Qed.

Lemma filter_rows_ok (q : string) (rows : list PremiumRow) :
  Forall symbol_ok rows ->
  filter_rows (symbol_matches q) rows =
  Ok (List.filter (fun r => keeps q (get r "symbol")) rows).
Proof.
  induction 1 as [|r rows Hr _ IH]; simpl; [reflexivity|].
  rewrite IH. unfold symbol_matches, symbol_ok, keeps in *.
  destruct (get r "symbol"); try contradiction; reflexivity.
Qed.

Lemma filter_sublist {A} (f : A -> bool) (l : list A) :
  sublist (List.filter f l) l.
Proof.
  induction l as [|x l IH]; simpl; [constructor|].
  destruct (f x); now constructor.
Qed.

Lemma keeps_spec (q : string) (r : PremiumRow) :
  keeps (JS.toLowerCase q) (get r "symbol") = true <-> symbol_contains q r.
Proof.
  unfold keeps, symbol_contains, contains_ci. split.
  - destruct (get r "symbol") as [| | | |s]; try discriminate.
    intros H%includes_spec. now exists s.
  - intros (s & -> & H). now apply includes_spec.
Qed.

Lemma filter_true {A} (l : list A) : List.filter (fun _ => true) l = l.
Proof. induction l as [|x l IH]; simpl; congruence. Qed.

(** On rows whose symbols are strings or absent the filter step returns,
    and what it returns is a subsequence of the rows. *)
Lemma filter_step_returns (rows : list PremiumRow) (Q : string) :
  Forall symbol_ok rows ->
  exists out, filter_step rows Q = Ok out /\ sublist out rows.
Proof.
  intros Hok. unfold filter_step.
  destruct (JS.toLowerCase (JS.trim Q)) as [|c q].
  - now exists rows.
  - rewrite (filter_rows_ok _ _ Hok). eexists. split; [reflexivity|].
    apply filter_sublist.
Qed.

(** C2 (as stated, refuted): the query is trimmed before it is matched, so
    a row is kept whose symbol does not contain the query itself: "AAA"
    passes the query " aa". *)
Lemma filter_matches_trimmed_query :
  filter_step [ {[ "symbol" := VStr "AAA" ]} ] " aa" =
    Ok [ {[ "symbol" := VStr "AAA" ]} ] /\
  ~ symbol_contains " aa" {[ "symbol" := VStr "AAA" ]}.
Proof.
  split; [vm_compute; reflexivity|].
  rewrite <- keeps_spec. vm_compute. discriminate.
Qed.

(** C2 (amended): for every row set whose symbols are strings or absent,
    and every query, the filter step returns a subsequence of the rows,
    order preserved; when the query is empty or white space only it is
    exactly the rows, otherwise it holds exactly the rows whose symbol
    contains the trimmed query as a case-insensitive substring; membership
    is a function of the symbol field alone. *)
Theorem filter_step_sound (rows : list PremiumRow) (Q : string) :
  Forall symbol_ok rows ->
  exists out,
    filter_step rows Q = Ok out /\
    sublist out rows /\
    (all_whitespace Q = true -> out = rows) /\
    (all_whitespace Q = false ->
       forall r, r ∈ out <-> r ∈ rows /\ symbol_contains (JS.trim Q) r) /\
    exists keep : value -> bool,
      out = List.filter (fun r => keep (get r "symbol")) rows.
Proof.
  intros Hok. unfold filter_step.
  destruct (JS.toLowerCase (JS.trim Q)) as [|c q] eqn:Eq.
  - apply (proj1 (toLowerCase_empty _)) in Eq.
    apply (proj1 (trim_empty _)) in Eq.
    exists rows. split; [reflexivity|]. split; [reflexivity|].
    split; [reflexivity|]. split; [congruence|].
    exists (fun _ => true). now rewrite filter_true.
  - assert (all_whitespace Q = false) as Hws.
    { destruct (all_whitespace Q) eqn:E; [|reflexivity].
      apply (proj2 (trim_empty _)) in E. rewrite E in Eq. discriminate Eq. }
    rewrite (filter_rows_ok _ _ Hok). eexists. split; [reflexivity|].
    split; [apply filter_sublist|]. split; [congruence|]. split.
    + intros _ r. rewrite !list_elem_of_In, filter_In, <- Eq, keeps_spec.
      reflexivity.
    + now exists (keeps (String c q)).
Qed.

Lemma filter_step_sound_witness :
  Forall symbol_ok example_rows /\
  exists out,
    filter_step example_rows " aa " = Ok out /\
    sublist out example_rows /\
    forall r, r ∈ out <-> r ∈ example_rows /\ symbol_contains "aa" r.
Proof.
  assert (Forall symbol_ok example_rows) as H
    by (repeat constructor; vm_compute; exact I).
  split; [exact H|].
  destruct (filter_step_sound example_rows " aa " H)
    as (out & Hf & Hsub & _ & Hmem & _).
  exists out. split; [exact Hf|]. split; [exact Hsub|].
  apply Hmem. reflexivity.
Defined.

(** ** The order of comparison values *)

Lemma Prim2SF_nan (x : float) : is_nan x = true -> Prim2SF x = S754_nan.
Proof. intros H. unfold Prim2SF. now rewrite H. Qed.

Lemma ltb_nan_l (x y : float) : is_nan x = true -> (x <? y)%float = false.
Proof.
  intros H. rewrite FloatAxioms.ltb_spec, (Prim2SF_nan x H). reflexivity.
Qed.

Lemma ltb_nan_r (x y : float) : is_nan y = true -> (x <? y)%float = false.
Proof.
  intros H. rewrite FloatAxioms.ltb_spec, (Prim2SF_nan y H).
  unfold SFltb. now destruct (Prim2SF x).
Qed.

Ltac compare_cases :=
  repeat match goal with
    | H : context [Pos.compare_cont Eq ?a ?b] |- _ =>
        change (Pos.compare_cont Eq a b) with (Pos.compare a b) in H
    | |- context [Pos.compare_cont Eq ?a ?b] =>
        change (Pos.compare_cont Eq a b) with (Pos.compare a b)
    | H : context [Z.compare ?a ?b] |- _ => destruct (Z.compare_spec a b)
    | |- context [Z.compare ?a ?b] => destruct (Z.compare_spec a b)
    | H : context [Pos.compare ?a ?b] |- _ => destruct (Pos.compare_spec a b)
    | |- context [Pos.compare ?a ?b] => destruct (Pos.compare_spec a b)
    end;
  simpl in *; try discriminate; try reflexivity; try lia.

Lemma SFltb_asym (x y : spec_float) : SFltb x y = true -> SFltb y x = false.
Proof.
  unfold SFltb, SFcompare.
  destruct x as [[]|[]| |[] mx ex], y as [[]|[]| |[] my ey];
    try discriminate; try reflexivity; compare_cases.
Qed.

(** On Numbers that are not NaN, "not greater" is transitive. *)
Lemma SFltb_negative_transitive (x y z : spec_float) :
  x <> S754_nan -> y <> S754_nan -> z <> S754_nan ->
  SFltb y x = false -> SFltb z y = false -> SFltb z x = false.
Proof.
  unfold SFltb, SFcompare.
  destruct x as [[]|[]| |[] mx ex], y as [[]|[]| |[] my ey],
           z as [[]|[]| |[] mz ez];
    intros Hx Hy Hz; try congruence; try reflexivity; try discriminate;
    compare_cases.
Qed.

Lemma ltb_asym (x y : float) : (x <? y)%float = true -> (y <? x)%float = false.
Proof. rewrite !FloatAxioms.ltb_spec. apply SFltb_asym. Qed.

Lemma ltb_negative_transitive (x y z : float) :
  is_nan x = false -> is_nan y = false -> is_nan z = false ->
  (y <? x)%float = false -> (z <? y)%float = false -> (z <? x)%float = false.
Proof.
  rewrite !FloatAxioms.ltb_spec. intros Hx Hy Hz.
  apply SFltb_negative_transitive; now apply Prim2SF_not_nan.
Qed.

Lemma string_lt_irrefl (s : string) : JS.string_lt s s = false.
Proof.
  induction s as [|c s IH]; simpl; [reflexivity|].
  now rewrite N.ltb_irrefl.
Qed.

Lemma string_lt_asym (s t : string) :
  JS.string_lt s t = true -> JS.string_lt t s = false.
Proof.
  revert t. induction s as [|a s IH]; intros [|b t]; simpl; try congruence.
  destruct (N.ltb_spec (N_of_ascii a) (N_of_ascii b)),
           (N.ltb_spec (N_of_ascii b) (N_of_ascii a));
    try congruence; try lia. apply IH.
Qed.

Lemma string_lt_negative_transitive (s t u : string) :
  JS.string_lt t s = false -> JS.string_lt u t = false ->
  JS.string_lt u s = false.
Proof.
  revert t u. induction s as [|a s IH]; intros [|b t] [|c u]; simpl;
    try congruence.
  destruct (N.ltb_spec (N_of_ascii b) (N_of_ascii a)),
           (N.ltb_spec (N_of_ascii a) (N_of_ascii b)),
           (N.ltb_spec (N_of_ascii c) (N_of_ascii b)),
           (N.ltb_spec (N_of_ascii b) (N_of_ascii c)),
           (N.ltb_spec (N_of_ascii c) (N_of_ascii a)),
           (N.ltb_spec (N_of_ascii a) (N_of_ascii c));
    try congruence; try lia. apply IH.
Qed.

(** ** Properties of the sort *)

Section InsertionSort.

Context {A : Type} (comparefn : A -> A -> Z).

Lemma insert_by_perm (x : A) (l : list A) : insert_by comparefn x l ≡ₚ x :: l.
Proof.
  induction l as [|y l IH]; simpl; [reflexivity|].
  destruct (comparefn x y <=? 0); [reflexivity|].
  rewrite IH. apply Permutation_swap.
Qed.

Lemma sort_by_perm (l : list A) : sort_by comparefn l ≡ₚ l.
Proof.
  induction l as [|x l IH]; simpl; [reflexivity|].
  unfold sort_by in *. simpl. now rewrite insert_by_perm, IH.
Qed.

Lemma insert_by_before_old (x y z : A) (l : list A) :
  before x y l -> before x y (insert_by comparefn z l).
Proof.
  induction l as [|w l IH]; simpl.
  - intros (l1 & l2 & l3 & H). now destruct l1.
  - intros Hb. destruct (comparefn z w <=? 0).
    + destruct Hb as (l1 & l2 & l3 & ->). now exists (z :: l1), l2, l3.
    + destruct Hb as ([|w' l1] & l2 & l3 & H); simplify_eq/=.
      * destruct (elem_of_Permutation_proper y _ _ (insert_by_perm z (l2 ++ y :: l3)))
          as [_ Hin].
        apply list_elem_of_split in Hin as (m1 & m2 & ->);
          [|set_solver].
        now exists [], m1, m2.
      * destruct IH as (m1 & m2 & m3 & ->); [now exists l1, l2, l3|].
        now exists (w' :: m1), m2, m3.
Qed.

(** The inserted element stops in front of the first element it is not
    put behind. *)
Lemma insert_by_before_new (x y : A) (l : list A) :
  y ∈ l -> comparefn x y <= 0 -> before x y (insert_by comparefn x l).
Proof.
  induction l as [|w l IH]; simpl; [set_solver|].
  intros Hin Hxy. destruct (Z.leb_spec (comparefn x w) 0) as [Hle|Hgt].
  - apply list_elem_of_split in Hin as (m1 & m2 & ->). now exists [], m1, m2.
  - apply elem_of_cons in Hin as [->|Hin]; [lia|].
    destruct (IH Hin Hxy) as (m1 & m2 & m3 & ->). now exists (w :: m1), m2, m3.
Qed.

(** Stability: two elements the comparator does not put in the other order
    keep the order they came in. *)
Lemma sort_by_stable (x y : A) (l : list A) :
  before x y l -> comparefn x y <= 0 -> before x y (sort_by comparefn l).
Proof.
  intros Hb Hxy. induction l as [|w l IH].
  - destruct Hb as (l1 & l2 & l3 & H). now destruct l1.
  - change (sort_by comparefn (w :: l))
      with (insert_by comparefn w (sort_by comparefn l)).
    destruct Hb as ([|w' l1] & l2 & l3 & H); simplify_eq/=.
    + apply insert_by_before_new; [|assumption].
      rewrite sort_by_perm. set_solver.
    + apply insert_by_before_old, IH. now exists l1, l2, l3.
Qed.

(** On a domain [P] where the comparator is consistent ("not after" is
    transitive and total), the result is sorted. *)
Section Consistent.

Variable P : A -> Prop.
Hypothesis comparefn_trans : forall x y z, P x -> P y -> P z ->
  comparefn x y <= 0 -> comparefn y z <= 0 -> comparefn x z <= 0.
Hypothesis comparefn_total : forall x y, P x -> P y ->
  0 < comparefn x y -> comparefn y x <= 0.

Let not_after (x y : A) : Prop := comparefn x y <= 0.

Lemma insert_by_sorted (x : A) (l : list A) :
  P x -> Forall P l ->
  StronglySorted not_after l -> StronglySorted not_after (insert_by comparefn x l).
Proof.
  intros Hx Hl Hs. induction Hs as [|y l Hs IH Hy]; simpl.
  - repeat constructor.
  - apply Forall_cons in Hl as [HPy HPl].
    destruct (Z.leb_spec (comparefn x y) 0) as [Hle|Hgt].
    + constructor; [now constructor|]. constructor; [exact Hle|].
      rewrite Forall_forall in Hy, HPl |- *. intros z Hz.
      apply (comparefn_trans x y z); auto. now apply Hy.
    + constructor; [now apply IH|].
      rewrite (insert_by_perm x l). constructor; [|exact Hy].
      now apply comparefn_total.
Qed.

Lemma sort_by_sorted (l : list A) :
  Forall P l -> StronglySorted not_after (sort_by comparefn l).
Proof.
  induction 1 as [|x l Hx Hl IH]; [constructor|].
  change (sort_by comparefn (x :: l))
    with (insert_by comparefn x (sort_by comparefn l)).
  apply insert_by_sorted; [assumption | now rewrite sort_by_perm | assumption].
Qed.

End Consistent.

Lemma StronglySorted_lookup (R : A -> A -> Prop) (l : list A) (i j : nat) (x y : A) :
  StronglySorted R l -> l !! i = Some x -> l !! j = Some y -> (i < j)%nat -> R x y.
Proof.
  intros Hs. revert i j. induction Hs as [|z l Hs IH Hz]; intros i j Hi Hj Hij.
  - discriminate Hi.
  - destruct j as [|j]; [lia|]. destruct i as [|i]; simpl in *.
    + injection Hi as ->. rewrite Forall_forall in Hz.
      apply Hz. now apply list_elem_of_lookup_2 in Hj.
    + apply (IH i j); auto. lia.
Qed.

End InsertionSort.

(** ** Properties of the comparator *)

Lemma comp_of_number (v : value) (n : float) :
  comp_of v = CNum n -> is_nan n = false.
Proof.
  unfold comp_of, JS.isNaN. destruct (is_nan (Number v)) eqn:E; congruence.
Qed.

(** The string a failed coercion leaves is not numeric either. *)
Lemma comp_of_string (v : value) (s : string) :
  comp_of v = CStr s -> is_nan (JS.StringToNumber s) = true.
Proof.
  unfold comp_of, JS.isNaN. destruct (is_nan (Number v)) eqn:E; [|discriminate].
  intros [= <-]. destruct v as [| |b|n|s]; simpl in *.
  - vm_compute. reflexivity.
  - vm_compute in E. discriminate E.
  - destruct b; vm_compute in E; discriminate E.
  - unfold JS.Number_toString. rewrite (Prim2SF_nan n E). vm_compute. reflexivity.
  - exact E.
Qed.

Lemma key_number (k : string) (r : PremiumRow) :
  is_number (key k r) = true -> exists n, key k r = CNum n /\ is_nan n = false.
Proof.
  destruct (key k r) as [n|s] eqn:E; [|discriminate].
  intros _. exists n. split; [reflexivity|]. exact (comp_of_number _ _ E).
Qed.

Lemma key_string (k : string) (r : PremiumRow) :
  is_number (key k r) = false ->
  exists s, key k r = CStr s /\ is_nan (JS.StringToNumber s) = true.
Proof.
  destruct (key k r) as [n|s] eqn:E; [discriminate|].
  intros _. exists s. split; [reflexivity|]. exact (comp_of_string _ _ E).
Qed.

Lemma less_than_asym (a b : comp) : less_than a b = true -> less_than b a = false.
Proof.
  destruct a, b; simpl; first [apply ltb_asym | apply string_lt_asym].
Qed.

(** A Number and a string that is not numeric: neither is less than the
    other. *)
Lemma less_than_mixed (k : string) (a b : PremiumRow) :
  mixed (key k a) (key k b) ->
  less_than (key k a) (key k b) = false /\ less_than (key k b) (key k a) = false.
Proof.
  unfold mixed. intros Hm.
  destruct (is_number (key k a)) eqn:Ea, (is_number (key k b)) eqn:Eb;
    try congruence.
  - apply key_number in Ea as (n & -> & _).
    apply key_string in Eb as (s & -> & Hs). simpl.
    split; [now apply ltb_nan_r | now apply ltb_nan_l].
  - apply key_string in Ea as (s & -> & Hs).
    apply key_number in Eb as (n & -> & _). simpl.
    split; [now apply ltb_nan_l | now apply ltb_nan_r].
Qed.

Lemma comparator_opp (k : string) (a b : PremiumRow) :
  comparator k desc a b = - comparator k asc a b.
Proof.
  unfold comparator.
  destruct (less_than _ _); [reflexivity|]. now destruct (less_than _ _).
Qed.

Lemma comparator_asc_le (k : string) (a b : PremiumRow) :
  comparator k asc a b <= 0 <-> less_than (key k b) (key k a) = false.
Proof.
  unfold comparator. fold (key k a) (key k b).
  destruct (less_than (key k a) (key k b)) eqn:E1.
  - apply less_than_asym in E1. rewrite E1. split; [reflexivity | lia].
  - destruct (less_than (key k b) (key k a)); split; (reflexivity || lia || discriminate).
Qed.

Lemma comparator_desc_le (k : string) (a b : PremiumRow) :
  comparator k desc a b <= 0 <-> less_than (key k a) (key k b) = false.
Proof.
  unfold comparator. fold (key k a) (key k b).
  destruct (less_than (key k a) (key k b)) eqn:E1; [split; [lia | discriminate]|].
  destruct (less_than (key k b) (key k a)); split; (reflexivity || lia).
Qed.

Lemma less_than_negative_transitive (k : string) (same : bool) (a b c : PremiumRow) :
  is_number (key k a) = same -> is_number (key k b) = same ->
  is_number (key k c) = same ->
  less_than (key k b) (key k a) = false -> less_than (key k c) (key k b) = false ->
  less_than (key k c) (key k a) = false.
Proof.
  destruct same; intros Ha Hb Hc.
  - apply key_number in Ha as (x & -> & Hx), Hb as (y & -> & Hy), Hc as (z & -> & Hz).
    simpl. now apply ltb_negative_transitive.
  - apply key_string in Ha as (x & -> & _), Hb as (y & -> & _), Hc as (z & -> & _).
    simpl. apply string_lt_negative_transitive.
Qed.

Lemma comparator_total (k : string) (d : sort_dir) (a b : PremiumRow) :
  0 < comparator k d a b -> comparator k d b a <= 0.
Proof.
  unfold comparator. fold (key k a) (key k b).
  destruct (less_than (key k a) (key k b)) eqn:E1.
  - apply less_than_asym in E1. rewrite E1. destruct d; lia.
  - destruct (less_than (key k b) (key k a)); destruct d; lia.
Qed.

Lemma comparator_trans (k : string) (d : sort_dir) (same : bool) (a b c : PremiumRow) :
  is_number (key k a) = same -> is_number (key k b) = same ->
  is_number (key k c) = same ->
  comparator k d a b <= 0 -> comparator k d b c <= 0 -> comparator k d a c <= 0.
Proof.
  intros Ha Hb Hc. destruct d.
  - rewrite !comparator_asc_le. intros Hab Hbc.
    exact (less_than_negative_transitive k same a b c Ha Hb Hc Hab Hbc).
  - rewrite !comparator_desc_le. intros Hab Hbc.
    exact (less_than_negative_transitive k same c b a Hc Hb Ha Hbc Hab).
Qed.

(** Over a column of Numbers only, or of strings only, the result of the
    sort is sorted, in either direction. *)
Lemma sort_by_comparator_sorted (k : string) (d : sort_dir) (out : list PremiumRow) :
  uniform_column k out ->
  StronglySorted (fun a b => comparator k d a b <= 0) (sort_by (comparator k d) out).
Proof.
  intros [H|H].
  - apply (sort_by_sorted _ (fun r => is_number (key k r) = true)); [| |exact H].
    + intros x y z. apply comparator_trans.
    + intros x y _ _. apply comparator_total.
  - apply (sort_by_sorted _ (fun r => is_number (key k r) = false)); [| |exact H].
    + intros x y z. apply comparator_trans.
    + intros x y _ _. apply comparator_total.
Qed.

Lemma visibleRows_sorts (rows : list PremiumRow) (Q k : string) (d : sort_dir)
    (out : list PremiumRow) :
  filter_step rows Q = Ok out ->
  visibleRows rows Q k d = Ok (sort_by (comparator k d) out).
Proof. intros H. unfold visibleRows. now rewrite H. Qed.

(** C4 (as stated, refuted): in a column that mixes Numbers with a string
    that is not numeric, the mixed pairs are ties and the sort leaves the
    rows where they are in both directions: the rows with Shares 2 and 1
    have distinct comparison values, and the first precedes the second
    ascending as well as descending. *)
Lemma mixed_column_not_reversed :
  visibleRows mixed_rows "" "Shares" asc = Ok mixed_rows /\
  visibleRows mixed_rows "" "Shares" desc = Ok mixed_rows /\
  (exists a b,
     mixed_rows !! 0%nat = Some a /\ mixed_rows !! 2%nat = Some b /\
     key "Shares" a = CNum 2 /\ key "Shares" b = CNum 1 /\
     less_than (key "Shares" b) (key "Shares" a) = true).
Proof.
  split; [vm_compute; reflexivity|]. split; [vm_compute; reflexivity|].
  exists {[ "symbol" := VStr "AAA"; "Shares" := VNum 2 ]},
         {[ "symbol" := VStr "CCC"; "Shares" := VNum 1 ]}.
  split; [reflexivity|]. split; [reflexivity|].
  split; [vm_compute; reflexivity|]. split; vm_compute; reflexivity.
Qed.

(** C4 (amended): for every row set (with symbols that are strings or
    absent), query and sort key, the ascending and the descending result
    hold the rows that pass the filter, and the direction flips the sign of
    the comparator and nothing else; when these rows are compared by Numbers
    only or by strings only, every pair of rows with distinct comparison
    values stands in mutually reversed order: the smaller before the larger
    ascending, after it descending. *)
Theorem sort_directions_reversed (rows : list PremiumRow) (Q sortKey : string) :
  Forall symbol_ok rows ->
  exists out up down,
    filter_step rows Q = Ok out /\
    visibleRows rows Q sortKey asc = Ok up /\
    visibleRows rows Q sortKey desc = Ok down /\
    up ≡ₚ out /\ down ≡ₚ out /\
    (forall a b, comparator sortKey desc a b = - comparator sortKey asc a b) /\
    (uniform_column sortKey out ->
     forall a b i j i' j',
       less_than (key sortKey a) (key sortKey b) = true ->
       up !! i = Some a -> up !! j = Some b ->
       down !! i' = Some a -> down !! j' = Some b ->
       (i < j)%nat /\ (j' < i')%nat).
Proof.
  intros Hok. destruct (filter_step_returns rows Q Hok) as (out & Hf & _).
  exists out, (sort_by (comparator sortKey asc) out),
         (sort_by (comparator sortKey desc) out).
  split; [exact Hf|].
  split; [now apply visibleRows_sorts|]. split; [now apply visibleRows_sorts|].
  split; [apply sort_by_perm|]. split; [apply sort_by_perm|].
  split; [apply comparator_opp|].
  intros Hu a b i j i' j' Hlt Hi Hj Hi' Hj'.
  pose proof (sort_by_comparator_sorted sortKey asc out Hu) as Hup.
  pose proof (sort_by_comparator_sorted sortKey desc out Hu) as Hdown.
  assert (a <> b) as Hne.
  { intros ->. pose proof (less_than_asym _ _ Hlt). congruence. }
  split.
  - destruct (Nat.lt_trichotomy i j) as [Hij|[->|Hji]]; [assumption| |].
    + congruence.
    + pose proof (StronglySorted_lookup _ _ _ _ _ _ Hup Hj Hi Hji) as H.
      simpl in H. apply comparator_asc_le in H. congruence.
  - destruct (Nat.lt_trichotomy j' i') as [Hij|[->|Hji]]; [assumption| |].
    + congruence.
    + pose proof (StronglySorted_lookup _ _ _ _ _ _ Hdown Hi' Hj' Hji) as H.
      simpl in H. apply comparator_desc_le in H. congruence.
Qed.

Lemma sort_directions_reversed_witness :
  Forall symbol_ok example_rows /\
  exists up down,
    visibleRows example_rows "" "symbol" asc = Ok up /\
    visibleRows example_rows "" "symbol" desc = Ok down /\
    up ≡ₚ example_rows /\ down ≡ₚ example_rows /\
    forall a b i j i' j',
      less_than (key "symbol" a) (key "symbol" b) = true ->
      up !! i = Some a -> up !! j = Some b ->
      down !! i' = Some a -> down !! j' = Some b ->
      (i < j)%nat /\ (j' < i')%nat.
Proof.
  assert (Forall symbol_ok example_rows) as Hok
    by (repeat constructor; vm_compute; exact I).
  split; [exact Hok|].
  destruct (sort_directions_reversed example_rows "" "symbol" Hok)
    as (out & up & down & Hf & Hup & Hdown & Hpu & Hpd & _ & Hrev).
  assert (out = example_rows) as -> by (injection Hf; auto).
  exists up, down. repeat (split; [assumption|]).
  apply Hrev. right. repeat constructor; vm_compute; reflexivity.
Defined.

(** ** The comparator on ties, and the order of a mixed column *)

Section Engines.

Context {A : Type}.
Variable comparefn : A -> A -> Z.

(** When every two elements tie, the stable sort leaves the array as it
    is. *)
Lemma sort_by_all_tie (l : list A) :
  (forall a b, a ∈ l -> b ∈ l -> comparefn a b = 0) -> sort_by comparefn l = l.
Proof.
  induction l as [|x l IH]; intros H; [reflexivity|].
  change (sort_by comparefn (x :: l))
    with (insert_by comparefn x (sort_by comparefn l)).
  rewrite IH by (intros a b Ha Hb; apply H; apply elem_of_cons; now right).
  destruct l as [|y l]; [reflexivity|]. simpl.
  rewrite (H x y); [reflexivity | |].
  - apply elem_of_cons. now left.
  - apply elem_of_cons. right. apply elem_of_cons. now left.
Qed.

Lemma run_extends_all_tie (prev : A) (rest : list A) :
  (forall a b, a ∈ prev :: rest -> b ∈ prev :: rest -> comparefn a b = 0) ->
  V8.run_extends comparefn false prev rest = length rest.
Proof.
  revert prev. induction rest as [|x rest IH]; intros prev H; [reflexivity|].
  cbn [V8.run_extends]. cbv zeta. rewrite (H x prev).
  - change (0 <? 0) with false. cbv iota. cbn [length]. f_equal. apply IH.
    intros a b Ha Hb. apply H; apply elem_of_cons; now right.
  - apply elem_of_cons. right. apply elem_of_cons. now left.
  - apply elem_of_cons. now left.
Qed.

(** So does V8's sort: the whole array is one ascending run. *)
Lemma ArrayTimSortImpl_all_tie (l : list A) :
  (length l < 64)%nat ->
  (forall a b, a ∈ l -> b ∈ l -> comparefn a b = 0) ->
  V8.ArrayTimSortImpl comparefn l = Some l.
Proof.
  intros Hlen H. unfold V8.ArrayTimSortImpl.
  destruct (length l <? 2)%nat eqn:E2; [reflexivity|].
  destruct (64 <=? length l)%nat eqn:E64; [apply Nat.leb_le in E64; lia|].
  destruct l as [|x [|y rest]]; [discriminate E2 | discriminate E2 |].
  unfold V8.CountAndMakeRun.
  rewrite (H y x).
  - change (0 <? 0) with false. cbv zeta iota beta.
    rewrite run_extends_all_tie.
    + replace (2 + length rest <? length (x :: y :: rest))%nat with false;
        [reflexivity|].
      symmetry. apply Nat.ltb_ge. simpl. lia.
    + intros a b Ha Hb. apply H; apply elem_of_cons; now right.
  - apply elem_of_cons. right. apply elem_of_cons. now left.
  - apply elem_of_cons. now left.
Qed.

Lemma insertion_point_bounds (fuel : nat) (w : list A) (pivot : A) (left right : nat) :
  (left <= right)%nat ->
  (left <= V8.insertion_point comparefn fuel w pivot left right <= right)%nat.
Proof.
  revert left right. induction fuel as [|fuel IH]; intros left right H;
    cbn [V8.insertion_point]; [lia|].
  destruct (left <? right)%nat eqn:E; [|lia]. apply Nat.ltb_lt in E. cbv zeta.
  assert (left + (right - left) / 2 < right)%nat as Hmid.
  { pose proof (Nat.div_mod_eq (right - left) 2) as Hd.
    pose proof (Nat.mod_upper_bound (right - left) 2 ltac:(lia)). lia. }
  destruct (w !! (left + (right - left) / 2)%nat) as [x|]; [|lia].
  destruct (comparefn pivot x <? 0).
  - specialize (IH left (left + (right - left) / 2)%nat ltac:(lia)). lia.
  - specialize (IH (S (left + (right - left) / 2)) right ltac:(lia)). lia.
Qed.

Lemma move_pivot_perm (w : list A) (pivot : A) (left start : nat) :
  w !! start = Some pivot -> (left <= start)%nat ->
  V8.move_pivot w pivot left start ≡ₚ w.
Proof.
  intros Hp Hl. unfold V8.move_pivot.
  assert (w = take left w ++
              take (start - left) (drop left w) ++ pivot :: drop (S start) w) as E.
  { rewrite <- (drop_S _ _ _ Hp).
    replace (drop start w) with (drop (start - left) (drop left w)).
    - now rewrite !take_drop.
    - rewrite drop_drop. f_equal. lia. }
  trans (take left w ++
         take (start - left) (drop left w) ++ pivot :: drop (S start) w).
  - apply Permutation_app_head, Permutation_middle.
  - now rewrite <- E.
Qed.

Lemma insert_from_perm (n : nat) (w : list A) (low start : nat) :
  (low <= start)%nat -> V8.insert_from comparefn n w low start ≡ₚ w.
Proof.
  revert w start. induction n as [|n IH]; intros w start H;
    cbn [V8.insert_from]; [reflexivity|].
  destruct (w !! start) as [pivot|] eqn:E; [|reflexivity]. cbv zeta.
  rewrite IH by lia. apply move_pivot_perm; [exact E|].
  now apply insertion_point_bounds.
Qed.

Lemma CountAndMakeRun_perm (w : list A) :
  snd (V8.CountAndMakeRun comparefn w) ≡ₚ w.
Proof.
  destruct w as [|x [|y rest]]; [reflexivity | reflexivity |].
  unfold V8.CountAndMakeRun. cbv zeta.
  destruct (comparefn y x <? 0); [|reflexivity].
  cbn [snd]. now rewrite reverse_Permutation, take_drop.
Qed.

(** V8's sort returns on fewer than 64 elements, with a rearrangement of
    them. *)
Lemma ArrayTimSortImpl_perm (l : list A) :
  (length l < 64)%nat ->
  exists l', V8.ArrayTimSortImpl comparefn l = Some l' /\ l' ≡ₚ l.
Proof.
  intros Hlen. unfold V8.ArrayTimSortImpl.
  destruct (length l <? 2)%nat; [now exists l|].
  destruct (64 <=? length l)%nat eqn:E64; [apply Nat.leb_le in E64; lia|].
  pose proof (CountAndMakeRun_perm l) as Hp.
  destruct (V8.CountAndMakeRun comparefn l) as [n w]. cbn [snd] in Hp.
  eexists. split; [reflexivity|].
  destruct (n <? length l)%nat; [|exact Hp].
  unfold V8.BinaryInsertionSort. rewrite insert_from_perm; [exact Hp|].
  destruct (Nat.eqb 0 n); lia.
Qed.

Lemma before_lookup (x y : A) (l : list A) :
  before x y l ->
  exists i j, (i < j)%nat /\ l !! i = Some x /\ l !! j = Some y.
Proof.
  intros (l1 & l2 & l3 & ->).
  exists (length l1), (length l1 + S (length l2))%nat.
  split; [lia|]. split.
  - now apply list_lookup_middle.
  - rewrite lookup_app_r by lia.
    replace (length l1 + S (length l2) - length l1)%nat with (S (length l2)) by lia.
    simpl. now apply list_lookup_middle.
Qed.

End Engines.

Lemma rows_differ (r r' : PremiumRow) :
  get r "symbol" <> get r' "symbol" -> r <> r'.
Proof. intros H E. apply H. now rewrite E. Qed.

(** C10 (as stated, refuted): a mixed pair need not keep its input order.
    In the Shares column 2, 1, "x", 0 the row with "x" ties with every
    other row while the Numbers do not tie with each other, so the
    comparator is not consistent and the order is the engine's: V8 reverses
    the descending run 2, 1, leaves "x" behind it and puts 0 in front by
    binary insertion, after comparing it with 2 and 1 only. The row with 0,
    which followed the row with "x", comes out before it. (The stable
    insertion sort orders the same rows as 1, 2, "x", 0.) *)
Lemma mixed_pair_reordered :
  exists a b c d,
    unsorted_mixed_rows = [a; b; c; d] /\
    visibleRows_V8 unsorted_mixed_rows "" "Shares" asc = Ok (Some [d; b; a; c]) /\
    visibleRows unsorted_mixed_rows "" "Shares" asc = Ok [b; a; c; d] /\
    mixed (key "Shares" c) (key "Shares" d) /\
    comparator "Shares" asc c d = 0 /\
    before c d unsorted_mixed_rows /\
    ~ before c d [d; b; a; c].
Proof.
  exists {[ "symbol" := VStr "AAA"; "Shares" := VNum 2 ]},
         {[ "symbol" := VStr "BBB"; "Shares" := VNum 1 ]},
         {[ "symbol" := VStr "CCC"; "Shares" := VStr "x" ]},
         {[ "symbol" := VStr "DDD"; "Shares" := VNum 0 ]}.
  split; [reflexivity|].
  split; [vm_compute; reflexivity|].
  split; [vm_compute; reflexivity|].
  split; [vm_compute; discriminate|].
  split; [vm_compute; reflexivity|].
  split.
  - exists [ {[ "symbol" := VStr "AAA"; "Shares" := VNum 2 ]};
             {[ "symbol" := VStr "BBB"; "Shares" := VNum 1 ]} ], [], [].
    reflexivity.
  - intros Hb. apply before_lookup in Hb as (i & j & Hij & Hi & Hj).
    destruct i as [|[|[|[|i]]]]; simpl in Hi; [| | | |discriminate Hi].
    + apply (inj Some) in Hi. revert Hi. apply rows_differ. vm_compute. discriminate.
    + apply (inj Some) in Hi. revert Hi. apply rows_differ. vm_compute. discriminate.
    + apply (inj Some) in Hi. revert Hi. apply rows_differ. vm_compute. discriminate.
    + destruct j as [|[|[|[|j]]]]; try lia. discriminate Hj.
Qed.

(** C10 (amended): a row whose sort-key field holds null is compared as
    the Number 0; a row without the field as the string "undefined"; a row
    whose comparison value is less than another's is put before it
    ascending (the comparator returns -1, and 1 the other way round) and
    after it descending; when one row is compared by a Number and the other
    by a string, neither relational test holds and the comparator returns 0
    in both orders and both directions, so that the pair is a tie. The rows
    shown are a rearrangement of the rows that pass the filter (for rows
    with symbols that are strings or absent, on which the filter step
    returns), and when every two of them tie they keep their input order,
    under the stable insertion sort as under V8's sort. *)
Theorem comparator_edge_cases :
  (forall (r : PremiumRow) k, r !! k = Some VNull -> key k r = CNum 0) /\
  (forall (r : PremiumRow) k, r !! k = None -> key k r = CStr "undefined") /\
  (forall a b k,
     less_than (key k a) (key k b) = true ->
     comparator k asc a b = -1 /\ comparator k desc a b = 1 /\
     comparator k asc b a = 1 /\ comparator k desc b a = -1) /\
  (forall a b k d,
     mixed (key k a) (key k b) ->
     less_than (key k a) (key k b) = false /\
     less_than (key k b) (key k a) = false /\
     comparator k d a b = 0 /\ comparator k d b a = 0) /\
  (forall rows Q k d,
     Forall symbol_ok rows ->
     exists out vis,
       filter_step rows Q = Ok out /\
       visibleRows rows Q k d = Ok vis /\ vis ≡ₚ out /\
       (all_tie k d out -> vis = out) /\
       ((length out < 64)%nat ->
        exists vis8,
          visibleRows_V8 rows Q k d = Ok (Some vis8) /\ vis8 ≡ₚ out /\
          (all_tie k d out -> vis8 = out))).
Proof.
  assert (forall a b k d, mixed (key k a) (key k b) -> comparator k d a b = 0)
    as Hzero.
  { intros a b k d Hm. destruct (less_than_mixed k a b Hm) as [H1 H2].
    unfold comparator. fold (key k a) (key k b). now rewrite H1, H2. }
  split; [|split; [|split; [|split]]].
  - intros r k H. unfold key, get. rewrite H. vm_compute. reflexivity.
  - intros r k H. unfold key, get. rewrite H. vm_compute. reflexivity.
  - intros a b k Hlt. pose proof (less_than_asym _ _ Hlt) as Hgt.
    unfold comparator. fold (key k a) (key k b). rewrite Hlt, Hgt.
    repeat split; reflexivity.
  - intros a b k d Hm. destruct (less_than_mixed k a b Hm) as [H1 H2].
    split; [exact H1|]. split; [exact H2|]. split; [now apply Hzero|].
    apply Hzero. unfold mixed in *. congruence.
  - intros rows Q k d Hok.
    destruct (filter_step_returns rows Q Hok) as (out & Hf & _).
    exists out, (sort_by (comparator k d) out).
    split; [exact Hf|]. split; [now apply visibleRows_sorts|].
    split; [apply sort_by_perm|].
    split; [apply sort_by_all_tie|].
    intros Hlen.
    destruct (ArrayTimSortImpl_perm (comparator k d) out Hlen) as (vis8 & H8 & Hp).
    exists vis8. unfold visibleRows_V8. rewrite Hf, H8.
    split; [reflexivity|]. split; [exact Hp|].
    intros Htie. rewrite (ArrayTimSortImpl_all_tie _ out Hlen Htie) in H8.
    congruence.
Qed.

Lemma comparator_edge_cases_witness :
  let n : PremiumRow := {[ "symbol" := VStr "AAA"; "Shares" := VNull ]} in
  let m : PremiumRow := {[ "symbol" := VStr "BBB" ]} in
  let s : PremiumRow := {[ "symbol" := VStr "CCC"; "Shares" := VStr "n/a" ]} in
  let p : PremiumRow := {[ "symbol" := VStr "DDD"; "Shares" := VNum 2 ]} in
  key "Shares" n = CNum 0 /\
  key "Shares" m = CStr "undefined" /\
  comparator "Shares" asc n p = -1 /\ comparator "Shares" desc n p = 1 /\
  comparator "Shares" asc s m = -1 /\ comparator "Shares" asc m s = 1 /\
  comparator "Shares" asc p s = 0 /\ comparator "Shares" asc s p = 0 /\
  visibleRows [p; s] "" "Shares" desc = Ok [p; s] /\
  visibleRows_V8 [p; s] "" "Shares" desc = Ok (Some [p; s]).
Proof.
  intros n m s p.
  pose proof comparator_edge_cases as (Hnull & Hmissing & Hless & Htie & Hkeep).
  split; [apply Hnull; vm_compute; reflexivity|].
  split; [apply Hmissing; vm_compute; reflexivity|].
  destruct (Hless n p "Shares") as (H1 & H2 & _); [vm_compute; reflexivity|].
  destruct (Hless s m "Shares") as (H3 & _ & H4 & _); [vm_compute; reflexivity|].
  destruct (Htie p s "Shares" asc) as (_ & _ & H5 & H6); [vm_compute; discriminate|].
  repeat (split; [assumption|]).
  destruct (Hkeep [p; s] "" "Shares" desc) as (out & vis & Hf & Hv & _ & Hsame & H8).
  { repeat constructor; vm_compute; exact I. }
  assert (out = [p; s]) as -> by (injection Hf; auto).
  assert (all_tie "Shares" desc [p; s]) as Hall.
  { intros a b Ha Hb.
    apply elem_of_cons in Ha as [->|Ha]; [|apply elem_of_cons in Ha as [->|Ha];
      [|now apply elem_of_nil in Ha]];
    (apply elem_of_cons in Hb as [->|Hb]; [|apply elem_of_cons in Hb as [->|Hb];
      [|now apply elem_of_nil in Hb]]); vm_compute; reflexivity. }
  split.
  - rewrite Hv. f_equal. now apply Hsame.
  - destruct H8 as (vis8 & Hv8 & _ & Hsame8); [simpl; lia|].
    rewrite Hv8. do 2 f_equal. now apply Hsame8.
Defined.

(** ** The store: what [filteredSorted] writes *)

Lemma lookup_fresh (h : store) : h !! fresh (dom h) = None.
Proof. apply not_elem_of_dom, is_fresh. Qed.

Lemma lookup_insert_fresh (h : store) (l : ref) (xs ys : list PremiumRow) :
  h !! l = Some xs -> <[fresh (dom h) := ys]> h !! l = Some xs.
Proof.
  intros H. rewrite lookup_insert_ne; [exact H|].
  intros E. rewrite <- E, lookup_fresh in H. discriminate H.
Qed.

(** [[...out].sort(comparefn)]: a fresh array holds the sorted elements,
    and nothing else of the store changes. *)
Lemma spread_sort (h : store) (out : ref) (xs : list PremiumRow)
    (comparefn : PremiumRow -> PremiumRow -> Z) :
  h !! out = Some xs ->
  (copy ← Array_spread out; sorted ← Array_sort copy comparefn; mret sorted) h =
  (Ok (fresh (dom h)), <[fresh (dom h) := sort_by comparefn xs]> h).
Proof.
  intros H.
  unfold Array_spread, Array_sort, read, alloc, write, mbind, M_bind, mret, M_ret.
  rewrite H, lookup_insert_eq. now rewrite insert_insert_eq.
Qed.

(** [filteredSorted] over the store computes [visibleRows] of the elements
    of the state array, into an array that did not exist before, and
    leaves every array that did as it was. *)
Lemma filteredSorted_run (h : store) (rows : ref) (xs : list PremiumRow)
    (Q k : string) (d : sort_dir) :
  h !! rows = Some xs ->
  match filteredSorted rows Q k d h with
  | (Ok sorted, h') =>
      h !! sorted = None /\
      (exists vis, visibleRows xs Q k d = Ok vis /\ h' !! sorted = Some vis) /\
      (forall l ys, h !! l = Some ys -> h' !! l = Some ys)
  | (Throw e, h') => visibleRows xs Q k d = Throw e /\ h' = h
  end.
Proof.
  intros H. unfold filteredSorted, visibleRows, filter_step.
  destruct (JS.toLowerCase (JS.trim Q)) as [|c q].
  - change ((out ← mret rows; copy ← Array_spread out;
             sorted ← Array_sort copy (comparator k d); mret sorted) h)
      with ((copy ← Array_spread rows;
             sorted ← Array_sort copy (comparator k d); mret sorted) h).
    rewrite (spread_sort h rows xs _ H).
    split; [apply lookup_fresh|]. split.
    + eexists. split; [reflexivity|]. apply lookup_insert_eq.
    + intros l ys Hl. now apply lookup_insert_fresh.
  - unfold mbind at 1. unfold M_bind at 1.
    unfold Array_filter, read, mbind at 1, M_bind at 1. rewrite H.
    destruct (filter_rows (symbol_matches (String c q)) xs) as [ys|e].
    + unfold alloc.
      rewrite (spread_sort (<[fresh (dom h) := ys]> h) (fresh (dom h)) ys _
                 (lookup_insert_eq _ _ _)).
      set (l0 := fresh (dom h)). set (h0 := <[l0 := ys]> h).
      assert (h !! fresh (dom h0) = None) as Hnew.
      { destruct (h !! fresh (dom h0)) as [zs|] eqn:E; [|reflexivity].
        apply (lookup_insert_fresh h _ zs ys) in E. fold l0 h0 in E.
        rewrite lookup_fresh in E. discriminate E. }
      split; [exact Hnew|]. split.
      * eexists. split; [reflexivity|]. apply lookup_insert_eq.
      * intros l ys' Hl. apply lookup_insert_fresh. unfold h0, l0.
        now apply lookup_insert_fresh.
    + split; reflexivity.
Qed.

(** C7: filtering and sorting never mutate the source row array: for every
    store, row set, query, sort key and direction, after [filteredSorted]
    the array of the state holds the same rows in the same order, so does
    every other array there was, and the array returned is a new one, not
    in the store before, that holds the visible rows. *)
Theorem filteredSorted_preserves_rows (h : store) (rows : ref)
    (xs : list PremiumRow) (Q k : string) (d : sort_dir) :
  h !! rows = Some xs ->
  let '(res, h') := filteredSorted rows Q k d h in
  h' !! rows = Some xs /\
  (forall l ys, h !! l = Some ys -> h' !! l = Some ys) /\
  (forall sorted, res = Ok sorted ->
     sorted <> rows /\ h !! sorted = None /\
     exists vis, visibleRows xs Q k d = Ok vis /\ h' !! sorted = Some vis).
Proof.
  intros H. pose proof (filteredSorted_run h rows xs Q k d H) as Hrun.
  destruct (filteredSorted rows Q k d h) as [[sorted|e] h'].
  - destruct Hrun as (Hnew & Hvis & Hold).
    split; [now apply Hold|]. split; [exact Hold|].
    intros ? [= <-]. split; [congruence|]. now split.
  - destruct Hrun as [_ ->]. split; [exact H|]. split; [auto|]. discriminate.
Qed.

Lemma filteredSorted_preserves_rows_witness :
  let h : store := {[ 1%positive := example_rows ]} in
  h !! 1%positive = Some example_rows /\
  let '(res, h') := filteredSorted 1%positive "b" "symbol" desc h in
  h' !! 1%positive = Some example_rows /\
  (forall l ys, h !! l = Some ys -> h' !! l = Some ys) /\
  (forall sorted, res = Ok sorted ->
     sorted <> 1%positive /\ h !! sorted = None /\
     exists vis, visibleRows example_rows "b" "symbol" desc = Ok vis /\
                 h' !! sorted = Some vis).
Proof.
  intros h. assert (h !! 1%positive = Some example_rows) as H by reflexivity.
  split; [exact H|].
  exact (filteredSorted_preserves_rows h 1%positive example_rows "b" "symbol" desc H).
Defined.

(** C8 (as stated, refuted): a row whose symbol is a number makes the
    filter throw as soon as the query is not blank. *)
Lemma filter_throws_on_numeric_symbol :
  visibleRows [ {[ "symbol" := VNum 5 ]} ] "a" "symbol" asc = Throw TypeError /\
  fst (filteredSorted 1%positive "a" "symbol" asc
         {[ 1%positive := [ {[ "symbol" := VNum 5 ]} ] ]}) = Throw TypeError.
Proof. split; vm_compute; reflexivity. Qed.

(** C8 (amended): over rows whose symbol is a string or is absent or null,
    whatever scalar values the other fields hold and whichever fields are
    missing, filtering and sorting never throw: [filteredSorted] returns
    the array of the visible rows, for every query, sort key and direction.
    The formatters and the totals are total functions of the embedding
    (none of the operations they use throws on a scalar value), and a value
    that cannot be used is absorbed as the default of the component: a row
    without symbol is no match, a blank cell is shown empty, a cell that is
    not a number is shown as its own text. *)
Theorem engine_never_throws (h : store) (rows : ref) (xs : list PremiumRow)
    (Q k : string) (d : sort_dir) :
  h !! rows = Some xs ->
  Forall symbol_ok xs ->
  (exists sorted h' vis,
     filteredSorted rows Q k d h = (Ok sorted, h') /\
     visibleRows xs Q k d = Ok vis /\
     h' !! sorted = Some vis) /\
  (forall (r : PremiumRow) q,
     get r "symbol" = VUndefined \/ get r "symbol" = VNull ->
     symbol_matches q r = Ok false) /\
  (forall v, is_blank v = true -> fmt v = "" /\ money v = "") /\
  (forall s, is_blank (VStr s) = false -> JS.isNaN (Number (VStr s)) = true ->
     fmt (VStr s) = s /\ money (VStr s) = s).
Proof.
  intros H Hok. split; [|split; [|split]].
  - pose proof (filteredSorted_run h rows xs Q k d H) as Hrun.
    destruct (filter_step_returns xs Q Hok) as (out & Hout & _).
    destruct (filteredSorted rows Q k d h) as [[sorted|e] h'].
    + destruct Hrun as (_ & (vis & Hvis & Hl) & _). now exists sorted, h', vis.
    + destruct Hrun as [Hthrow _]. unfold visibleRows in Hthrow.
      rewrite Hout in Hthrow. discriminate Hthrow.
  - intros r q [E|E]; unfold symbol_matches; now rewrite E.
  - intros v Hv. unfold fmt, money. now rewrite Hv.
  - intros s Hb Hn. unfold fmt, money. now rewrite Hb, Hn.
Qed.

Lemma engine_never_throws_witness :
  let xs : list PremiumRow :=
    [ {[ "symbol" := VStr "AAA"; "Shares" := VBool true; "0.15N" := VStr "n/a" ]};
      {[ "Shares" := VNull ]} ] in
  let h : store := {[ 1%positive := xs ]} in
  h !! 1%positive = Some xs /\ Forall symbol_ok xs /\
  exists sorted h' vis,
    filteredSorted 1%positive "a" "Shares" asc h = (Ok sorted, h') /\
    visibleRows xs "a" "Shares" asc = Ok vis /\
    h' !! sorted = Some vis.
Proof.
  intros xs h.
  assert (h !! 1%positive = Some xs) as H by reflexivity.
  assert (Forall symbol_ok xs) as Hok by (repeat constructor; vm_compute; exact I).
  split; [exact H|]. split; [exact Hok|].
  exact (proj1 (engine_never_throws h 1%positive xs "a" "Shares" asc H Hok)).
Defined.

(** ** Properties of the totals *)

Lemma foldl_cons {A B} (f : A -> B -> A) (a : A) (x : B) (l : list B) :
  foldl f a (x :: l) = foldl f (f a x) l.
Proof. reflexivity. Qed.

Lemma contributions_cons (d : float) (r : PremiumRow) (rows : list PremiumRow) :
  contributions d (r :: rows) =
  if negb (JS.isNaN (net_value r d))
  then net_value r d :: contributions d rows
  else contributions d rows.
Proof. reflexivity. Qed.

Lemma delta_keys_eq : map delta_key DELTAS = delta_keys.
Proof. vm_compute. reflexivity. Qed.

Lemma delta_keys_NoDup : NoDup delta_keys.
Proof. apply (bool_decide_unpack _). vm_compute. exact I. Qed.

Lemma delta_key_elem (d : float) : d ∈ DELTAS -> delta_key d ∈ delta_keys.
Proof. intros H. rewrite <- delta_keys_eq. now apply list_elem_of_fmap_2. Qed.

Lemma add_net_lookup_same (r : PremiumRow) (t : gmap string float) (d : float) :
  add_net r t d !! delta_key d = step_value r d (t !! delta_key d).
Proof.
  unfold add_net, step_value. fold (net_value r d). fold (delta_key d).
  destruct (negb (JS.isNaN (net_value r d))); [|reflexivity].
  unfold add_to. apply lookup_insert_eq.
Qed.

Lemma add_net_lookup_other (r : PremiumRow) (t : gmap string float) (d : float)
    (k : string) :
  k <> delta_key d -> add_net r t d !! k = t !! k.
Proof.
  intros Hk. unfold add_net. fold (net_value r d). fold (delta_key d).
  destruct (negb (JS.isNaN (net_value r d))); [|reflexivity].
  unfold add_to. now rewrite lookup_insert_ne.
Qed.

Lemma row_lookup_other (r : PremiumRow) (ds : list float) (t : gmap string float)
    (k : string) :
  k ∉ map delta_key ds -> foldl (add_net r) t ds !! k = t !! k.
Proof.
  revert t. induction ds as [|d ds IH]; intros t Hk; simpl; [reflexivity|].
  simpl in Hk. apply not_elem_of_cons in Hk as [Hne Hk].
  rewrite IH by assumption. now apply add_net_lookup_other.
Qed.

(** Each step of the inner loop touches the sum of its own key only. *)
Lemma row_lookup (r : PremiumRow) (ds : list float) (t : gmap string float)
    (d : float) :
  NoDup (map delta_key ds) -> d ∈ ds ->
  foldl (add_net r) t ds !! delta_key d = step_value r d (t !! delta_key d).
Proof.
  revert t. induction ds as [|d1 ds IH]; intros t Hnd Hd; [set_solver|].
  simpl in *. apply NoDup_cons in Hnd as [Hfresh Hnd].
  apply elem_of_cons in Hd as [->|Hd].
  - rewrite row_lookup_other by assumption. apply add_net_lookup_same.
  - rewrite IH by assumption. f_equal. apply add_net_lookup_other.
    intros E. apply Hfresh. rewrite <- E. now apply list_elem_of_fmap_2.
Qed.

Lemma rows_lookup_other (vis : list PremiumRow) (t : gmap string float) (k : string) :
  k ∉ delta_keys ->
  foldl (fun totals r => foldl (add_net r) totals DELTAS) t vis !! k = t !! k.
Proof.
  intros Hk. revert t. induction vis as [|r vis IH]; intros t; [reflexivity|].
  rewrite foldl_cons, IH. apply row_lookup_other. now rewrite delta_keys_eq.
Qed.

(** The sum of a step is the running sum of the contributions of the rows
    to that step. *)
Lemma rows_lookup (vis : list PremiumRow) (t : gmap string float) (d a : float) :
  d ∈ DELTAS -> t !! delta_key d = Some a ->
  foldl (fun totals r => foldl (add_net r) totals DELTAS) t vis !! delta_key d =
  Some (running_sum a (contributions d vis)).
Proof.
  intros Hd. revert t a. induction vis as [|r vis IH]; intros t a Ht.
  - exact Ht.
  - pose proof (row_lookup r DELTAS t d) as Hrow.
    rewrite delta_keys_eq in Hrow. specialize (Hrow delta_keys_NoDup Hd).
    rewrite Ht in Hrow. unfold step_value in Hrow.
    rewrite foldl_cons, contributions_cons.
    destruct (negb (JS.isNaN (net_value r d))); now apply IH.
Qed.

Lemma zero_totals_lookup (k : string) :
  zero_totals !! k = if bool_decide (k ∈ delta_keys) then Some 0%float else None.
Proof.
  assert (zero_totals = list_to_map (map (fun k => (k, 0%float)) delta_keys)) as ->
    by (vm_compute; reflexivity).
  case_bool_decide as Hk.
  - unfold delta_keys in *.
    repeat (apply elem_of_cons in Hk as [->|Hk]; [vm_compute; reflexivity|]).
    set_solver.
  - apply not_elem_of_list_to_map. rewrite <- list_fmap_compose.
    now rewrite list_fmap_id.
Qed.

Lemma netTotals_lookup (vis : list PremiumRow) (d : float) :
  d ∈ DELTAS ->
  netTotalsByDelta vis !! delta_key d = Some (running_sum 0 (contributions d vis)).
Proof.
  intros Hd. apply rows_lookup; [exact Hd|].
  rewrite zero_totals_lookup, bool_decide_eq_true_2; [reflexivity|].
  now apply delta_key_elem.
Qed.

Lemma netTotals_dom (vis : list PremiumRow) :
  dom (netTotalsByDelta vis) = list_to_set delta_keys.
Proof.
  apply set_eq. intros k. rewrite elem_of_dom, elem_of_list_to_set.
  destruct (decide (k ∈ delta_keys)) as [Hk|Hk].
  - split; [auto|]. intros _. rewrite <- delta_keys_eq in Hk.
    apply list_elem_of_fmap in Hk as (d & -> & Hd).
    rewrite netTotals_lookup by assumption. eauto.
  - unfold netTotalsByDelta. rewrite rows_lookup_other by assumption.
    rewrite zero_totals_lookup, bool_decide_eq_false_2 by assumption.
    split; [intros [x Hx]; discriminate Hx | tauto].
Qed.

(** *** Sums are never the negative zero *)

Lemma digits2_pos_size (p : positive) : digits2_pos p = Pos.size p.
Proof. induction p; simpl; congruence. Qed.

Lemma shr_1_m (r : shr_record) :
  0 <= shr_m r -> shr_m (shr_1 r) = shr_m r / 2.
Proof.
  destruct r as [m b s]. simpl. intros Hm.
  destruct m as [|[p|p|]|p]; cbn [shr_m]; try lia; try reflexivity.
  - change (Z.pos p~1) with (2 * Z.pos p + 1).
    rewrite (Z.mul_comm 2), Z.div_add_l by lia.
    now rewrite Z.div_small by lia.
  - change (Z.pos p~0) with (2 * Z.pos p).
    now rewrite (Z.mul_comm 2), Z.div_mul by lia.
Qed.

Lemma iter_shr_1_m (p : positive) (r : shr_record) :
  0 <= shr_m r -> shr_m (SpecFloat.iter_pos shr_1 p r) = shr_m r / 2 ^ Zpos p.
Proof.
  revert r. induction p as [p IH|p IH|]; intros r Hr; cbn [SpecFloat.iter_pos].
  - pose proof (Z.pow_pos_nonneg 2 (Z.pos p) ltac:(lia) ltac:(lia)) as Hp.
    assert (0 <= shr_m (shr_1 r)) as H1
      by (rewrite shr_1_m by assumption; apply Z.div_pos; lia).
    assert (0 <= shr_m (SpecFloat.iter_pos shr_1 p (shr_1 r))) as H2
      by (rewrite IH by assumption; apply Z.div_pos; lia).
    rewrite IH, IH, shr_1_m by assumption.
    rewrite !Z.div_div by lia.
    f_equal. change (Z.pos p~1) with (2 * Z.pos p + 1).
    replace (2 * Z.pos p + 1) with (1 + Z.pos p + Z.pos p) by lia.
    rewrite !Z.pow_add_r by lia. lia.
  - pose proof (Z.pow_pos_nonneg 2 (Z.pos p) ltac:(lia) ltac:(lia)) as Hp.
    assert (0 <= shr_m (SpecFloat.iter_pos shr_1 p r)) as H2
      by (rewrite IH by assumption; apply Z.div_pos; lia).
    rewrite IH, IH by assumption.
    rewrite !Z.div_div by lia.
    f_equal. change (Z.pos p~0) with (2 * Z.pos p).
    replace (2 * Z.pos p) with (Z.pos p + Z.pos p) by lia.
    now rewrite Z.pow_add_r by lia.
  - now apply shr_1_m.
Qed.

Lemma shr_record_of_loc_m (m : Z) (l : location) : shr_m (shr_record_of_loc m l) = m.
Proof. now destruct l as [|[]]. Qed.

Lemma digits2_pos_lower (p : positive) : 2 ^ (Zpos (digits2_pos p) - 1) <= Zpos p.
Proof.
  induction p as [p IH|p IH|]; cbn [digits2_pos]; [| |reflexivity].
  all: rewrite Pos2Z.inj_succ;
    replace (Z.succ (Z.pos (digits2_pos p)) - 1)
      with (1 + (Z.pos (digits2_pos p) - 1)) by lia;
    rewrite Z.pow_add_r by lia; lia.
Qed.

(** Truncation to the format keeps a positive mantissa positive, as long
    as the exponent is not below the least one. *)
Lemma shr_fexp_pos (p : positive) (e : Z) (l : location) :
  SpecFloat.emin prec emax <= e ->
  0 < shr_m (fst (shr_fexp prec emax (Zpos p) e l)) /\
  SpecFloat.emin prec emax <= snd (shr_fexp prec emax (Zpos p) e l).
Proof.
  change (SpecFloat.emin prec emax) with (-1074). intros He.
  unfold shr_fexp, shr, fexp. cbn [Zdigits2].
  change (SpecFloat.emin prec emax) with (-1074). change prec with 53.
  pose proof (digits2_pos_lower p) as Hd.
  set (d := Z.pos (digits2_pos p)) in *.
  destruct (Z.max (d + e - 53) (-1074) - e) as [|k|k] eqn:En; cbn [fst snd];
    rewrite ?shr_record_of_loc_m; try lia.
  rewrite iter_shr_1_m by (rewrite shr_record_of_loc_m; lia).
  rewrite shr_record_of_loc_m. split; [|lia].
  assert (Z.pos k = d - 53) as Hk by lia.
  apply Z.div_str_pos. split; [apply Z.pow_pos_nonneg; lia|].
  etransitivity; [|exact Hd]. apply Z.pow_le_mono_r; lia.
Qed.

Lemma round_nearest_even_ge (m : Z) (l : location) : m <= round_nearest_even m l.
Proof. destruct l as [|[]]; simpl; try lia. destruct (Z.even m); lia. Qed.

(** Rounding a positive mantissa never gives a zero. *)
Lemma binary_round_aux_not_zero (s s' : bool) (p : positive) (e : Z) (l : location) :
  SpecFloat.emin prec emax <= e ->
  binary_round_aux prec emax s (Zpos p) e l <> S754_zero s'.
Proof.
  intros He. unfold binary_round_aux.
  destruct (shr_fexp_pos p e l He) as [Hm He'].
  destruct (shr_fexp prec emax (Z.pos p) e l) as [r e'].
  cbn [fst snd] in Hm, He'.
  pose proof (round_nearest_even_ge (shr_m r) (loc_of_shr_record r)) as Hr.
  destruct (round_nearest_even (shr_m r) (loc_of_shr_record r)) as [|q|q]; try lia.
  destruct (shr_fexp_pos q e' loc_Exact He') as [Hm' _].
  destruct (shr_fexp prec emax (Z.pos q) e' loc_Exact) as [r' e''].
  cbn [fst] in Hm'. destruct (shr_m r'); try lia.
  destruct (e'' <=? emax - prec); discriminate.
Qed.

Lemma binary_normalize_not_neg_zero (m e : Z) :
  SpecFloat.emin prec emax <= e ->
  binary_normalize prec emax m e false <> S754_zero true.
Proof.
  intros He. unfold binary_normalize, binary_round.
  assert (forall p, SpecFloat.emin prec emax <=
            snd (shl_align p e (fexp prec emax (Z.pos (digits2_pos p) + e)))) as Ha.
  { intros p. unfold shl_align, fexp.
    destruct (Z.max _ _ - e) eqn:E; cbn [snd]; lia. }
  destruct m as [|p|p]; [discriminate| |].
  - specialize (Ha p). destruct (shl_align _ _ _) as [mz ez].
    now apply binary_round_aux_not_zero.
  - specialize (Ha p). destruct (shl_align _ _ _) as [mz ez].
    now apply binary_round_aux_not_zero.
Qed.

Lemma valid_binary_emin (s : bool) (m : positive) (e : Z) :
  valid_binary (S754_finite s m e) = true -> SpecFloat.emin prec emax <= e.
Proof.
  unfold SpecFloat.valid_binary, bounded, canonical_mantissa, fexp.
  intros [H%Z.eqb_eq _]%andb_true_iff. lia.
Qed.

(** A sum is the negative zero only when both terms are. *)
Lemma SFadd_neg_zero (x y : spec_float) :
  valid_binary x = true -> valid_binary y = true ->
  SF64add x y = S754_zero true -> x = S754_zero true /\ y = S754_zero true.
Proof.
  intros Hx Hy. unfold SF64add, SFadd.
  destruct x as [[]|[]| |sx mx ex], y as [[]|[]| |sy my ey];
    try discriminate; try (now split).
  apply valid_binary_emin in Hx, Hy. intros H. exfalso.
  revert H. apply binary_normalize_not_neg_zero. lia.
Qed.

Lemma add_neg_zero (x y : float) :
  (x + y)%float = neg_zero -> x = neg_zero /\ y = neg_zero.
Proof.
  intros H. pose proof (FloatAxioms.add_spec x y) as Hs. rewrite H in Hs.
  change (Prim2SF neg_zero) with (S754_zero true) in Hs. symmetry in Hs.
  apply SFadd_neg_zero in Hs as [Hx Hy]; try apply Prim2SF_valid.
  split; apply Prim2SF_inj; assumption.
Qed.

Lemma running_sum_not_neg_zero (a : float) (xs : list float) :
  a <> neg_zero -> running_sum a xs <> neg_zero.
Proof.
  revert a. induction xs as [|x xs IH]; intros a Ha; [exact Ha|].
  apply IH. intros H. now apply add_neg_zero in H as [? _].
Qed.

Lemma zero_not_neg_zero : 0%float <> neg_zero.
Proof. intros H. apply (f_equal Prim2SF) in H. vm_compute in H. discriminate H. Qed.

(** Adding the Number 0 leaves every Number but the negative zero as it
    is. *)
Lemma add_zero_r (x : float) : x <> neg_zero -> (x + 0)%float = x.
Proof.
  intros Hx. apply Prim2SF_inj. rewrite FloatAxioms.add_spec.
  change (Prim2SF 0) with (S754_zero false). unfold SF64add, SFadd.
  destruct (Prim2SF x) as [[]|[]| |s m e] eqn:E; try reflexivity.
  exfalso. apply Hx, Prim2SF_inj. now rewrite E.
Qed.

Lemma add_zero_l (x : float) : x <> neg_zero -> (0 + x)%float = x.
Proof.
  intros Hx. apply Prim2SF_inj. rewrite FloatAxioms.add_spec.
  change (Prim2SF 0) with (S754_zero false). unfold SF64add, SFadd.
  destruct (Prim2SF x) as [[]|[]| |s m e] eqn:E; try reflexivity.
  exfalso. apply Hx, Prim2SF_inj. now rewrite E.
Qed.

Lemma add_neg_zero_r (x : float) : (x + neg_zero)%float = x.
Proof.
  apply Prim2SF_inj. rewrite FloatAxioms.add_spec.
  change (Prim2SF neg_zero) with (S754_zero true). unfold SF64add, SFadd.
  destruct (Prim2SF x) as [[]|[]| |s m e]; reflexivity.
Qed.

(** Adding [0 + c] to a sum is adding [c] to it. *)
Lemma add_zero_add (a c : float) :
  a <> neg_zero -> (a + (0 + c))%float = (a + c)%float.
Proof.
  intros Ha. destruct (Prim2SF c) as [[]|s| |s m e] eqn:E.
  - assert (c = neg_zero) as -> by (apply Prim2SF_inj; now rewrite E).
    replace (0 + neg_zero)%float with 0%float by (vm_compute; reflexivity).
    now rewrite add_zero_r, add_neg_zero_r.
  - rewrite add_zero_l; [reflexivity|]. intros ->. discriminate E.
  - rewrite add_zero_l; [reflexivity|]. intros ->. discriminate E.
  - rewrite add_zero_l; [reflexivity|]. intros ->. discriminate E.
  - rewrite add_zero_l; [reflexivity|]. intros ->. discriminate E.
Qed.

Lemma running_sum_app (a : float) (xs ys : list float) :
  running_sum a (xs ++ ys) = running_sum (running_sum a xs) ys.
Proof. apply foldl_app. Qed.

Lemma contributions_app (d : float) (xs ys : list PremiumRow) :
  contributions d (xs ++ ys) = contributions d xs ++ contributions d ys.
Proof. unfold contributions. now rewrite map_app, List.filter_app. Qed.

Lemma net_value_missing (r : PremiumRow) (d : float) :
  net_missing r d -> net_value r d = 0%float.
Proof. unfold net_value. now intros [-> | ->]. Qed.

(** C3: for every visible row set, the empty one included, the totals
    have exactly 10 keys, the two-decimal strings of the deltas 0.05 to
    0.50; every sum starts at zero, so that no rows give all-zero sums; and
    a row whose net field for a step is missing, or fails the coercion to a
    Number, contributes exactly zero: the sum of that step is what it is
    without the row. *)
Theorem netTotals_keys_and_zero :
  map delta_key DELTAS = delta_keys /\
  (forall vis,
     dom (netTotalsByDelta vis) = list_to_set delta_keys /\
     size (netTotalsByDelta vis) = 10%nat) /\
  (forall k, k ∈ delta_keys ->
     zero_totals !! k = Some 0%float /\ netTotalsByDelta [] !! k = Some 0%float) /\
  (forall pre r post d,
     d ∈ DELTAS ->
     net_missing r d \/ JS.isNaN (net_value r d) = true ->
     netTotalsByDelta (pre ++ r :: post) !! delta_key d =
     netTotalsByDelta (pre ++ post) !! delta_key d).
Proof.
  split; [exact delta_keys_eq|]. split; [|split].
  - intros vis. split; [apply netTotals_dom|].
    rewrite <- size_dom, netTotals_dom, size_list_to_set by exact delta_keys_NoDup.
    reflexivity.
  - intros k Hk. change (netTotalsByDelta []) with zero_totals.
    rewrite zero_totals_lookup, bool_decide_eq_true_2 by assumption. now split.
  - intros pre r post d Hd Hr.
    rewrite !netTotals_lookup by assumption. f_equal.
    rewrite !contributions_app, contributions_cons.
    destruct Hr as [Hmiss|Hnan]; [|now rewrite Hnan].
    rewrite (net_value_missing r d Hmiss).
    change (negb (JS.isNaN 0)) with true. cbv iota.
    rewrite !running_sum_app. unfold running_sum at 1. rewrite foldl_cons.
    fold (running_sum (running_sum 0 (contributions d pre) + 0) (contributions d post)).
    rewrite add_zero_r; [reflexivity|].
    apply running_sum_not_neg_zero, zero_not_neg_zero.
Qed.

Lemma netTotals_keys_and_zero_witness :
  netTotalsByDelta [] !! "0.15" = Some 0%float /\
  netTotalsByDelta (example_rows ++ {[ "symbol" := VStr "CCC"; "0.15N" := VStr "n/a" ]} :: [])
    !! delta_key delta_015 =
  netTotalsByDelta (example_rows ++ []) !! delta_key delta_015 /\
  netTotalsByDelta ([] ++ {[ "symbol" := VStr "CCC" ]} :: example_rows)
    !! delta_key delta_015 =
  netTotalsByDelta ([] ++ example_rows) !! delta_key delta_015.
Proof.
  pose proof netTotals_keys_and_zero as (_ & _ & Hzero & Hrow).
  assert (delta_015 ∈ DELTAS) as Hd.
  { apply (list_elem_of_lookup_2 _ 2%nat). vm_compute. reflexivity. }
  split.
  { apply Hzero. apply (list_elem_of_lookup_2 _ 2%nat). reflexivity. }
  split.
  - apply Hrow; [exact Hd | right; vm_compute; reflexivity].
  - apply Hrow; [exact Hd | left; left; vm_compute; reflexivity].
Defined.

(** C5 (as stated, refuted): with nets 0.1, 0.2 and 0.3 in one group, the
    total of the three rows is 0.6000000000000001, while the total of the
    first row plus the total of the other two is 0.6. *)
Lemma netTotals_not_additive :
  exists A B a b ab,
    A ++ B = tenths /\
    netTotalsByDelta A !! "0.05" = Some a /\
    netTotalsByDelta B !! "0.05" = Some b /\
    netTotalsByDelta (A ++ B) !! "0.05" = Some ab /\
    ab = 0.6000000000000001%float /\ (a + b)%float = 0.6%float /\
    (ab =? a + b)%float = false.
Proof.
  exists (take 1 tenths), (drop 1 tenths),
         0.1%float, 0.5%float, 0.6000000000000001%float.
  split; [reflexivity|]. split; [vm_compute; reflexivity|].
  split; [vm_compute; reflexivity|]. split; [vm_compute; reflexivity|].
  split; [vm_compute; reflexivity|]. split; vm_compute; reflexivity.
Qed.

(** C5 (amended): the totals of a concatenation continue the totals of the
    first row set over the rows of the second: per delta key, the sum for
    [A ++ B] is the sum for [A] with the net values of [B] that are Numbers
    added to it one after the other, left to right. It is the sum for [A]
    plus the sum for [B] when [B] contributes at most one Number to the
    key; with more, floating-point addition not being associative, it need
    not be. *)
Theorem netTotals_concat (A B : list PremiumRow) (d : float) :
  d ∈ DELTAS ->
  exists a b,
    netTotalsByDelta A !! delta_key d = Some a /\
    netTotalsByDelta B !! delta_key d = Some b /\
    b = running_sum 0 (contributions d B) /\
    netTotalsByDelta (A ++ B) !! delta_key d =
      Some (running_sum a (contributions d B)) /\
    ((length (contributions d B) <= 1)%nat ->
     netTotalsByDelta (A ++ B) !! delta_key d = Some (a + b)%float).
Proof.
  intros Hd. rewrite !netTotals_lookup by assumption. eexists _, _.
  split; [reflexivity|]. split; [reflexivity|]. split; [reflexivity|].
  split; [now rewrite contributions_app, running_sum_app|].
  rewrite contributions_app, running_sum_app.
  assert (running_sum 0 (contributions d A) <> neg_zero) as Ha
    by apply running_sum_not_neg_zero, zero_not_neg_zero.
  destruct (contributions d B) as [|c [|c' cs]]; simpl; intros Hlen; [| |lia].
  - now rewrite add_zero_r.
  - now rewrite add_zero_add.
Qed.

Lemma netTotals_concat_witness :
  delta_015 ∈ DELTAS /\
  exists a b,
    netTotalsByDelta (take 1 example_rows) !! delta_key delta_015 = Some a /\
    netTotalsByDelta (drop 1 example_rows) !! delta_key delta_015 = Some b /\
    netTotalsByDelta (take 1 example_rows ++ drop 1 example_rows)
      !! delta_key delta_015 = Some (a + b)%float.
Proof.
  assert (delta_015 ∈ DELTAS) as Hd.
  { apply (list_elem_of_lookup_2 _ 2%nat). vm_compute. reflexivity. }
  split; [exact Hd|].
  destruct (netTotals_concat (take 1 example_rows) (drop 1 example_rows) delta_015 Hd)
    as (a & b & Ha & Hb & _ & _ & Hsum).
  exists a, b. split; [exact Ha|]. split; [exact Hb|].
  apply Hsum. vm_compute. lia.
Defined.

(** ** The auto-scroll effect *)

Section AutoScrollProperties.

Variable offsetLeft : string -> Z.

Lemma mount_view :
  mount offsetLeft = {| v_state := initial; v_deps := Some 0%nat; v_scrolls := [] |}.
Proof. reflexivity. Qed.

Lemma handle_user_rows (e : event) (s : state) :
  is_user_event e = true -> st_rows (handle e s) = st_rows s.
Proof.
  destruct e as [r|text|key0]; [discriminate| |]; intros _; [reflexivity|].
  unfold handle. now destruct (toggleSort key0 (st_sortKey s, st_sortDir s)).
Qed.

(** A change of the query or of the sort leaves the dependency of the
    effect as it is: the effect does not run. *)
Lemma step_user_event (v : view) (e : event) :
  is_user_event e = true -> deps_current v ->
  deps_current (step offsetLeft v e) /\
  st_rows (v_state (step offsetLeft v e)) = st_rows (v_state v) /\
  v_scrolls (step offsetLeft v e) = v_scrolls v.
Proof.
  intros He Hv. unfold step, commit, deps_current in *.
  rewrite Hv, (handle_user_rows e _ He), Nat.eqb_refl. simpl.
  now rewrite (handle_user_rows e _ He).
Qed.

Lemma run_user_events (es : list event) (v : view) :
  forallb is_user_event es = true -> deps_current v ->
  deps_current (foldl (step offsetLeft) v es) /\
  st_rows (v_state (foldl (step offsetLeft) v es)) = st_rows (v_state v) /\
  v_scrolls (foldl (step offsetLeft) v es) = v_scrolls v.
Proof.
  revert v. induction es as [|e es IH]; intros v Hes Hv; [now repeat split|].
  simpl in Hes. apply andb_true_iff in Hes as [He Hes].
  destruct (step_user_event v e He Hv) as (Hd & Hr & Hs).
  destruct (IH (step offsetLeft v e) Hes Hd) as (Hd' & Hr' & Hs').
  rewrite foldl_cons. split; [assumption|]. split; congruence.
Qed.

(** When the fetch settles the length of the rows changes if and only if
    rows arrived, and the effect then scrolls to the 0.15 group. *)
Lemma step_fetched (v : view) (r : response) :
  deps_current v -> st_rows (v_state v) = [] ->
  deps_current (step offsetLeft v (Fetched r)) /\
  v_scrolls (step offsetLeft v (Fetched r)) =
    v_scrolls v ++
    match received r with
    | [] => []
    | _ :: _ => [Z.max 0 (offsetLeft "0.15" - STICKY_TOTAL - 8)]
    end.
Proof.
  intros Hv Hrows. unfold step, commit, deps_current in *.
  rewrite Hv, Hrows. simpl.
  destruct (received r) as [|x xs]; simpl; [now rewrite app_nil_r|].
  split; reflexivity.
Qed.

End AutoScrollProperties.

(** C9: the effect scrolls exactly once, when the row set of the state
    goes from no rows to at least one: nothing is scrolled before the fetch
    settles, whatever the user does; when it settles with rows the scroll
    container is sent once to the offset of the 0.15 group header minus the
    total width of the frozen columns minus a margin of 8 (not below 0); and
    no later change of the filter or of the sort scrolls again. A fetch that
    brings no rows (an empty array, not an array, a failure) never scrolls. *)
Theorem auto_scroll_fires_once (offsetLeft : string -> Z) (pre post : list event)
    (r : response) :
  forallb is_user_event pre = true ->
  forallb is_user_event post = true ->
  let anchor := Z.max 0 (offsetLeft "0.15" - STICKY_TOTAL - 8) in
  querySelector "0.15" = Some "0.15" /\
  (STICKY_TOTAL + 8 <= offsetLeft "0.15" ->
   anchor = offsetLeft "0.15" - (W_SYMBOL + W_UNDER + W_SHARES) - 8) /\
  v_scrolls (run offsetLeft pre) = [] /\
  (received r <> [] ->
   v_scrolls (run offsetLeft (pre ++ [Fetched r])) = [anchor] /\
   v_scrolls (run offsetLeft (pre ++ Fetched r :: post)) = [anchor]) /\
  (received r = [] ->
   v_scrolls (run offsetLeft (pre ++ Fetched r :: post)) = []).
Proof.
  intros Hpre Hpost anchor.
  split; [vm_compute; reflexivity|].
  split; [unfold anchor, STICKY_TOTAL; lia|].
  assert (deps_current (mount offsetLeft)) as Hm by reflexivity.
  destruct (run_user_events offsetLeft pre _ Hpre Hm) as (Hd & Hr & Hs).
  fold (run offsetLeft pre) in Hd, Hr, Hs.
  split; [exact Hs|].
  destruct (step_fetched offsetLeft (run offsetLeft pre) r Hd Hr) as [Hd1 Hs1].
  rewrite Hs in Hs1.
  destruct (run_user_events offsetLeft post _ Hpost Hd1) as (_ & _ & Hs2).
  assert (run offsetLeft (pre ++ [Fetched r]) =
          step offsetLeft (run offsetLeft pre) (Fetched r)) as E1
    by (unfold run; now rewrite foldl_app).
  assert (run offsetLeft (pre ++ Fetched r :: post) =
          foldl (step offsetLeft) (step offsetLeft (run offsetLeft pre) (Fetched r)) post)
    as E2 by (unfold run; now rewrite foldl_app).
  rewrite E1, E2, Hs2, Hs1. split.
  - intros Hne. destruct (received r); [congruence | now split].
  - now intros ->.
Qed.

Lemma auto_scroll_fires_once_witness :
  let offsetLeft := fun _ : string => 500 in
  let pre := [QueryInput "a"; HeaderClick "Shares"] in
  let post := [QueryInput "aa"; HeaderClick "Shares"; HeaderClick "symbol"] in
  forallb is_user_event pre = true /\ forallb is_user_event post = true /\
  v_scrolls (run offsetLeft pre) = [] /\
  v_scrolls (run offsetLeft (pre ++ Fetched (Rows example_rows) :: post)) = [315] /\
  v_scrolls (run offsetLeft (pre ++ Fetched NotAnArray :: post)) = [].
Proof.
  intros offsetLeft pre post.
  assert (forallb is_user_event pre = true) as Hpre by reflexivity.
  assert (forallb is_user_event post = true) as Hpost by reflexivity.
  split; [exact Hpre|]. split; [exact Hpost|].
  pose proof (auto_scroll_fires_once offsetLeft pre post (Rows example_rows) Hpre Hpost)
    as (_ & _ & Hbefore & Hrows & _).
  pose proof (auto_scroll_fires_once offsetLeft pre post NotAnArray Hpre Hpost)
    as (_ & _ & _ & _ & Hnone).
  split; [exact Hbefore|]. split.
  - apply Hrows. discriminate.
  - apply Hnone. reflexivity.
Defined.

(** ** Further properties of the page *)

(** X1: clicking the header of the active sort key twice brings the sort
    state back; clicking another header makes that key the sort key,
    ascending; after a click the clicked key is the sort key. *)
Theorem toggleSort_twice (key0 k : string) (d : sort_dir) :
  fst (toggleSort key0 (k, d)) = key0 /\
  (k = key0 -> toggleSort key0 (toggleSort key0 (k, d)) = (k, d)) /\
  (k <> key0 -> toggleSort key0 (k, d) = (key0, asc) /\
                toggleSort key0 (toggleSort key0 (k, d)) = (key0, desc)).
Proof.
  unfold toggleSort. split; [|split].
  - destruct (String.eqb_spec k key0) as [->|Hne]; reflexivity.
  - intros ->. rewrite !String.eqb_refl. now destruct d.
  - intros Hne. apply String.eqb_neq in Hne. rewrite Hne.
    now rewrite String.eqb_refl.
Qed.

Lemma toggleSort_twice_witness :
  toggleSort "Shares" (toggleSort "Shares" ("Shares", desc)) = ("Shares", desc) /\
  toggleSort "Shares" ("symbol", desc) = ("Shares", asc).
Proof.
  pose proof (toggleSort_twice "Shares" "Shares" desc) as (_ & Hsame & _).
  pose proof (toggleSort_twice "Shares" "symbol" desc) as (_ & _ & Hother).
  split; [now apply Hsame|]. apply Hother. discriminate.
Defined.

(** X2: the visible rows are loaded rows: they are a rearrangement of a
    subsequence of the rows of the state, so the row counter never exceeds
    the number of rows loaded, and with a blank query every loaded row is
    visible. *)
Theorem visibleRows_are_rows (rows : list PremiumRow) (Q k : string) (d : sort_dir) :
  Forall symbol_ok rows ->
  exists out vis,
    visibleRows rows Q k d = Ok vis /\
    sublist out rows /\ vis ≡ₚ out /\
    (length vis <= length rows)%nat /\
    (forall r, r ∈ vis -> r ∈ rows) /\
    (all_whitespace Q = true -> vis ≡ₚ rows /\ length vis = length rows).
Proof.
  intros Hok. destruct (filter_step_returns rows Q Hok) as (out & Hf & Hsub).
  exists out, (sort_by (comparator k d) out).
  pose proof (sort_by_perm (comparator k d) out) as Hp.
  split; [now apply visibleRows_sorts|]. split; [exact Hsub|]. split; [exact Hp|].
  split; [rewrite Hp; now apply sublist_length|]. split.
  - intros r Hr. rewrite Hp in Hr. eapply elem_of_sublist; eassumption.
  - intros Hws. apply (proj2 (trim_empty Q)) in Hws.
    unfold filter_step in Hf. rewrite Hws in Hf. injection Hf as <-.
    split; [exact Hp | now rewrite Hp].
Qed.

Lemma visibleRows_are_rows_witness :
  Forall symbol_ok example_rows /\
  exists vis,
    visibleRows example_rows "  " "Shares" desc = Ok vis /\
    vis ≡ₚ example_rows /\ length vis = length example_rows.
Proof.
  assert (Forall symbol_ok example_rows) as Hok
    by (repeat constructor; vm_compute; exact I).
  split; [exact Hok|].
  destruct (visibleRows_are_rows example_rows "  " "Shares" desc Hok)
    as (out & vis & Hv & _ & _ & _ & _ & Hall).
  exists vis. split; [exact Hv|]. apply Hall. reflexivity.
Defined.

Lemma sort_by_sorted_id {A} (comparefn : A -> A -> Z) (l : list A) :
  StronglySorted (fun a b => comparefn a b <= 0) l -> sort_by comparefn l = l.
Proof.
  induction 1 as [|x l Hs IH Hx]; [reflexivity|].
  change (sort_by comparefn (x :: l)) with (insert_by comparefn x (sort_by comparefn l)).
  rewrite IH. destruct l as [|y l]; [reflexivity|]. simpl.
  apply Forall_cons in Hx as [Hxy _].
  destruct (Z.leb_spec (comparefn x y) 0); [reflexivity | lia].
Qed.

Lemma StronglySorted_reverse {A} (R : A -> A -> Prop) (l : list A) :
  StronglySorted R l -> StronglySorted (flip R) (reverse l).
Proof.
  induction 1 as [|x l Hs IH Hx]; [constructor|].
  rewrite reverse_cons. apply StronglySorted_app. split; [|split].
  - intros a b Ha Hb. apply list_elem_of_singleton in Hb as ->.
    rewrite elem_of_reverse in Ha. rewrite Forall_forall in Hx. now apply Hx.
  - exact IH.
  - repeat constructor.
Qed.

Lemma StronglySorted_weaken {A} (R R' : A -> A -> Prop) (l : list A) :
  (forall a b, R a b -> R' a b) -> StronglySorted R l -> StronglySorted R' l.
Proof.
  intros HR. induction 1 as [|x l Hs IH Hx]; constructor; [exact IH|].
  eapply Forall_impl; [exact Hx|]. intros b. apply HR.
Qed.

(** X3: over a column of Numbers only, or of strings only, the visible
    rows are in order: ascending no row is followed by a row with a smaller
    comparison value, descending by none with a larger one; and sorting the
    visible rows again by the same key and direction leaves them as they
    are. *)
Theorem visibleRows_in_order (rows : list PremiumRow) (Q k : string) (d : sort_dir) :
  Forall symbol_ok rows ->
  exists out vis,
    filter_step rows Q = Ok out /\
    visibleRows rows Q k d = Ok vis /\
    (uniform_column k out ->
     (forall i j a b,
        (i < j)%nat -> vis !! i = Some a -> vis !! j = Some b ->
        match d with
        | asc => less_than (key k b) (key k a) = false
        | desc => less_than (key k a) (key k b) = false
        end) /\
     visibleRows vis "" k d = Ok vis).
Proof.
  intros Hok. destruct (filter_step_returns rows Q Hok) as (out & Hf & _).
  exists out, (sort_by (comparator k d) out).
  split; [exact Hf|]. split; [now apply visibleRows_sorts|].
  intros Hu. pose proof (sort_by_comparator_sorted k d out Hu) as Hs. split.
  - intros i j a b Hij Hi Hj.
    pose proof (StronglySorted_lookup _ _ _ _ _ _ Hs Hi Hj Hij) as H. simpl in H.
    destruct d; [now apply comparator_asc_le | now apply comparator_desc_le].
  - unfold visibleRows, filter_step. change (JS.toLowerCase (JS.trim "")) with "".
    cbv iota. f_equal. now apply sort_by_sorted_id.
Qed.

Lemma visibleRows_in_order_witness :
  Forall symbol_ok example_rows /\
  exists vis,
    visibleRows example_rows "" "symbol" desc = Ok vis /\
    (forall i j a b,
       (i < j)%nat -> vis !! i = Some a -> vis !! j = Some b ->
       less_than (key "symbol" a) (key "symbol" b) = false) /\
    visibleRows vis "" "symbol" desc = Ok vis.
Proof.
  assert (Forall symbol_ok example_rows) as Hok
    by (repeat constructor; vm_compute; exact I).
  split; [exact Hok|].
  destruct (visibleRows_in_order example_rows "" "symbol" desc Hok)
    as (out & vis & Hf & Hv & Hord).
  assert (out = example_rows) as -> by (injection Hf; auto).
  exists vis. split; [exact Hv|].
  apply Hord. right. repeat constructor; vm_compute; reflexivity.
Defined.

(** X4: the sort is stable: over a column of Numbers only, or of strings
    only, two rows that tie (the comparator returns 0, as for equal values)
    are shown in the order they were loaded in, in either direction. *)
Theorem visibleRows_stable (rows : list PremiumRow) (Q k : string) (d : sort_dir) :
  Forall symbol_ok rows ->
  exists out vis,
    filter_step rows Q = Ok out /\
    visibleRows rows Q k d = Ok vis /\
    (uniform_column k out ->
     forall a b, comparator k d a b = 0 -> before a b out -> before a b vis).
Proof.
  intros Hok. destruct (filter_step_returns rows Q Hok) as (out & Hf & _).
  exists out, (sort_by (comparator k d) out).
  split; [exact Hf|]. split; [now apply visibleRows_sorts|].
  intros _ a b Hab Hb. apply sort_by_stable; [exact Hb | lia].
Qed.

Lemma visibleRows_stable_witness :
  Forall symbol_ok example_rows /\
  exists vis,
    visibleRows example_rows "" "Shares" desc = Ok vis /\
    forall a b, comparator "Shares" desc a b = 0 ->
                before a b example_rows -> before a b vis.
Proof.
  assert (Forall symbol_ok example_rows) as Hok
    by (repeat constructor; vm_compute; exact I).
  split; [exact Hok|].
  destruct (visibleRows_stable example_rows "" "Shares" desc Hok)
    as (out & vis & Hf & Hv & Hst).
  assert (out = example_rows) as -> by (injection Hf; auto).
  exists vis. split; [exact Hv|].
  apply Hst. right. repeat constructor; vm_compute; reflexivity.
Defined.

(** X5: over a column of Numbers only, or of strings only, in which no
    two rows tie, the descending order is the ascending order read
    backwards. *)
Theorem descending_is_reverse (rows : list PremiumRow) (Q k : string) :
  Forall symbol_ok rows ->
  exists out up down,
    filter_step rows Q = Ok out /\
    visibleRows rows Q k asc = Ok up /\
    visibleRows rows Q k desc = Ok down /\
    (uniform_column k out -> distinct_keys k out -> down = reverse up).
Proof.
  intros Hok. destruct (filter_step_returns rows Q Hok) as (out & Hf & _).
  exists out, (sort_by (comparator k asc) out), (sort_by (comparator k desc) out).
  split; [exact Hf|]. split; [now apply visibleRows_sorts|].
  split; [now apply visibleRows_sorts|].
  intros Hu Hdist.
  pose proof (sort_by_comparator_sorted k asc out Hu) as Hup.
  pose proof (sort_by_comparator_sorted k desc out Hu) as Hdown.
  apply StronglySorted_reverse in Hup.
  apply (StronglySorted_unique_strong (fun a b => comparator k desc a b <= 0)).
  - intros x1 x2 H1 H2 H12 H21.
    rewrite sort_by_perm in H1. rewrite elem_of_reverse, sort_by_perm in H2.
    apply list_elem_of_lookup in H1 as [i Hi], H2 as [j Hj].
    destruct (decide (i = j)) as [->|Hne]; [congruence|].
    apply comparator_desc_le in H12, H21.
    destruct (Hdist i j x1 x2 Hi Hj Hne); congruence.
  - exact Hdown.
  - eapply StronglySorted_weaken; [|exact Hup]. intros a b H. unfold flip in H.
    apply comparator_asc_le in H. now apply comparator_desc_le.
  - now rewrite reverse_Permutation, !sort_by_perm.
Qed.

Lemma descending_is_reverse_witness :
  Forall symbol_ok example_rows /\
  exists up down,
    visibleRows example_rows "" "symbol" asc = Ok up /\
    visibleRows example_rows "" "symbol" desc = Ok down /\
    down = reverse up.
Proof.
  assert (Forall symbol_ok example_rows) as Hok
    by (repeat constructor; vm_compute; exact I).
  split; [exact Hok|].
  destruct (descending_is_reverse example_rows "" "symbol" Hok)
    as (out & up & down & Hf & Hu & Hd & Hrev).
  assert (out = example_rows) as -> by (injection Hf; auto).
  exists up, down. split; [exact Hu|]. split; [exact Hd|]. apply Hrev.
  - right. repeat constructor; vm_compute; reflexivity.
  - intros i j a b Hi Hj Hne.
    destruct i as [|[|i]], j as [|[|j]]; try discriminate; try congruence;
      injection Hi as <-; injection Hj as <-;
      [left | right]; vm_compute; reflexivity.
Defined.

(** *** The query *)

Lemma string_app_assoc (s t u : string) : (s +:+ t) +:+ u = s +:+ (t +:+ u).
Proof.
  induction s as [|c s IH]; [reflexivity|].
  change (String c ((s +:+ t) +:+ u) = String c (s +:+ (t +:+ u))). now rewrite IH.
Qed.

Lemma string_app_cons (c : ascii) (s t : string) :
  String c s +:+ t = String c (s +:+ t).
Proof. reflexivity. Qed.

Lemma lower_char_whitespace (c : ascii) :
  JS.is_whitespace (JS.lower_char c) = JS.is_whitespace c.
Proof. destruct c as [[] [] [] [] [] [] [] []]; reflexivity. Qed.

Lemma lower_char_idem (c : ascii) : JS.lower_char (JS.lower_char c) = JS.lower_char c.
Proof. destruct c as [[] [] [] [] [] [] [] []]; reflexivity. Qed.

Lemma toLowerCase_idem (s : string) :
  JS.toLowerCase (JS.toLowerCase s) = JS.toLowerCase s.
Proof. induction s as [|c s IH]; simpl; [reflexivity|]. now rewrite lower_char_idem, IH. Qed.

Lemma toLowerCase_app (s t : string) :
  JS.toLowerCase (s +:+ t) = JS.toLowerCase s +:+ JS.toLowerCase t.
Proof.
  induction s as [|c s IH]; [reflexivity|].
  rewrite string_app_cons. simpl. now rewrite IH.
Qed.

Lemma toLowerCase_trim_start (s : string) :
  JS.toLowerCase (JS.trim_start s) = JS.trim_start (JS.toLowerCase s).
Proof.
  induction s as [|c s IH]; simpl; [reflexivity|].
  rewrite lower_char_whitespace. now destruct (JS.is_whitespace c).
Qed.

Lemma toLowerCase_trim_end (s : string) :
  JS.toLowerCase (JS.trim_end s) = JS.trim_end (JS.toLowerCase s).
Proof.
  induction s as [|c s IH]; simpl; [reflexivity|].
  rewrite <- IH, lower_char_whitespace.
  destruct (JS.trim_end s); simpl; [|reflexivity].
  now destruct (JS.is_whitespace c).
Qed.

Lemma toLowerCase_trim (s : string) :
  JS.toLowerCase (JS.trim s) = JS.trim (JS.toLowerCase s).
Proof. unfold JS.trim. now rewrite toLowerCase_trim_end, toLowerCase_trim_start. Qed.

Lemma trim_start_whitespace (s : string) :
  all_whitespace s = true -> JS.trim_start s = "".
Proof.
  induction s as [|c s IH]; simpl; [reflexivity|].
  intros [Hc Hs]%andb_true_iff. rewrite Hc. now apply IH.
Qed.

(** What [trim_end] keeps of a string it keeps of every extension, and
    white space at the end adds nothing. *)
Lemma trim_end_app (s x : string) :
  exists t, JS.trim_end (s +:+ x) = JS.trim_end s +:+ t /\
            (all_whitespace x = true -> t = "").
Proof.
  induction s as [|c s (t & IH & Hws)].
  - exists (JS.trim_end x). split; [reflexivity|]. apply trim_end_empty.
  - rewrite string_app_cons. simpl. rewrite IH.
    destruct (JS.trim_end s) as [|a u].
    + change ("" +:+ t) with t. destruct t as [|b t].
      * exists "". split; [now rewrite string_app_empty | reflexivity].
      * destruct (JS.is_whitespace c).
        -- exists (String c (String b t)). split; [reflexivity|].
           intros H. now apply Hws in H.
        -- exists (String b t). split; [reflexivity | exact Hws].
    + exists t. split; [reflexivity | exact Hws].
Qed.

Lemma trim_start_app (s x : string) :
  JS.trim_start (s +:+ x) =
  if all_whitespace s then JS.trim_start x else JS.trim_start s +:+ x.
Proof.
  induction s as [|c s IH]; [reflexivity|].
  rewrite string_app_cons. simpl. destruct (JS.is_whitespace c); [exact IH | reflexivity].
Qed.

Lemma trim_pad (pre Q post : string) :
  all_whitespace pre = true -> all_whitespace post = true ->
  JS.trim (pre +:+ Q +:+ post) = JS.trim Q.
Proof.
  intros Hpre Hpost. unfold JS.trim.
  rewrite trim_start_app, Hpre, trim_start_app.
  destruct (all_whitespace Q) eqn:EQ.
  - rewrite (trim_start_whitespace post Hpost), (trim_start_whitespace Q EQ).
    reflexivity.
  - destruct (trim_end_app (JS.trim_start Q) post) as (t & -> & Ht).
    rewrite (Ht Hpost). apply string_app_empty.
Qed.

(** The trimmed query occurs in what it becomes when it is typed on. *)
Lemma trim_extends (Q x : string) : substring_of (JS.trim Q) (JS.trim (Q +:+ x)).
Proof.
  unfold JS.trim, substring_of. rewrite trim_start_app.
  destruct (all_whitespace Q) eqn:EQ.
  - rewrite (trim_start_whitespace Q EQ). exists "", (JS.trim_end (JS.trim_start x)).
    reflexivity.
  - destruct (trim_end_app (JS.trim_start Q) x) as (t & -> & _). now exists "", t.
Qed.

Lemma substring_of_trans (a b c : string) :
  substring_of a b -> substring_of b c -> substring_of a c.
Proof.
  intros (p1 & q1 & ->) (p2 & q2 & ->). exists (p2 +:+ p1), (q1 +:+ q2).
  now rewrite !string_app_assoc.
Qed.

Lemma substring_of_lower (a b : string) :
  substring_of a b -> substring_of (JS.toLowerCase a) (JS.toLowerCase b).
Proof.
  intros (p & q & ->). exists (JS.toLowerCase p), (JS.toLowerCase q).
  now rewrite !toLowerCase_app.
Qed.

Lemma substring_of_empty (a : string) : substring_of a "" -> a = "".
Proof.
  intros ([|c p] & q & H); [|discriminate H].
  destruct a; [reflexivity | discriminate H].
Qed.

Lemma filter_narrows {A} (p p' : A -> bool) (l : list A) :
  (forall x, p' x = true -> p x = true) ->
  sublist (List.filter p' l) (List.filter p l).
Proof.
  intros Hpp. induction l as [|x l IH]; simpl; [constructor|].
  destruct (p' x) eqn:E'.
  - rewrite (Hpp x E'). now constructor.
  - destruct (p x); [now constructor | exact IH].
Qed.

(** A query in which another occurs, both trimmed and case ignored, keeps
    no row the other drops. *)
Lemma filter_step_narrows (rows : list PremiumRow) (Q Q' : string) :
  Forall symbol_ok rows ->
  substring_of (JS.toLowerCase (JS.trim Q)) (JS.toLowerCase (JS.trim Q')) ->
  exists out out',
    filter_step rows Q = Ok out /\ filter_step rows Q' = Ok out' /\
    sublist out' out.
Proof.
  intros Hok Hsub. unfold filter_step.
  destruct (JS.toLowerCase (JS.trim Q')) as [|c' q'] eqn:E'.
  - apply substring_of_empty in Hsub. rewrite Hsub. now exists rows, rows.
  - rewrite (filter_rows_ok _ _ Hok).
    destruct (JS.toLowerCase (JS.trim Q)) as [|c q] eqn:E.
    + eexists _, _. split; [reflexivity|]. split; [reflexivity|].
      apply filter_sublist.
    + rewrite (filter_rows_ok _ _ Hok). eexists _, _.
      split; [reflexivity|]. split; [reflexivity|].
      apply filter_narrows. intros r. unfold keeps.
      destruct (get r "symbol") as [| | | |s]; try discriminate.
      rewrite !includes_spec. intros H. eapply substring_of_trans; eassumption.
Qed.

(** X6: how the query is written does not matter beyond its letters: white
    space around it is ignored, and so is the case of its letters; two
    queries that agree up to case and surrounding white space show the same
    rows. *)
Theorem query_is_normalised (rows : list PremiumRow) (Q Q' pre post k : string)
    (d : sort_dir) :
  all_whitespace pre = true -> all_whitespace post = true ->
  JS.toLowerCase Q = JS.toLowerCase Q' ->
  visibleRows rows (pre +:+ Q +:+ post) k d = visibleRows rows Q k d /\
  visibleRows rows (JS.toLowerCase Q) k d = visibleRows rows Q k d /\
  visibleRows rows Q k d = visibleRows rows (pre +:+ Q' +:+ post) k d.
Proof.
  intros Hpre Hpost Hcase. unfold visibleRows, filter_step.
  rewrite !trim_pad by assumption.
  rewrite (toLowerCase_trim (JS.toLowerCase Q)), toLowerCase_idem.
  rewrite (toLowerCase_trim Q), (toLowerCase_trim Q'), Hcase.
  repeat split.
Qed.

Lemma query_is_normalised_witness :
  visibleRows example_rows "  aA " "symbol" asc =
  visibleRows example_rows "aA" "symbol" asc /\
  visibleRows example_rows "aA" "symbol" asc =
  visibleRows example_rows " Aa  " "symbol" asc.
Proof.
  pose proof (query_is_normalised example_rows "aA" "aA" "  " " " "symbol" asc
                eq_refl eq_refl eq_refl) as (H1 & _ & _).
  pose proof (query_is_normalised example_rows "aA" "Aa" " " "  " "symbol" asc
                eq_refl eq_refl eq_refl) as (_ & _ & H3).
  split; [exact H1 | exact H3].
Defined.

(** X7: typing on narrows the list: whatever ASCII characters are
    appended to an ASCII query, the rows that then pass the filter are a
    subsequence of those that passed before, so no row comes back into
    view. (Beyond ASCII the language lowers a capital sigma by its place in
    the word, and a letter typed after it can change the query that came
    before.) *)
Theorem typing_narrows (rows : list PremiumRow) (Q x : string) :
  Forall symbol_ok rows ->
  ascii_only Q = true -> ascii_only x = true ->
  exists out out',
    filter_step rows Q = Ok out /\ filter_step rows (Q +:+ x) = Ok out' /\
    sublist out' out /\ (length out' <= length out)%nat.
Proof.
  intros Hok _ _.
  destruct (filter_step_narrows rows Q (Q +:+ x) Hok) as (out & out' & H1 & H2 & Hs).
  { apply substring_of_lower, trim_extends. }
  exists out, out'. repeat (split; [assumption|]). now apply sublist_length.
Qed.

Lemma typing_narrows_witness :
  Forall symbol_ok example_rows /\
  exists out out',
    filter_step example_rows "a" = Ok out /\
    filter_step example_rows ("a" +:+ "ab") = Ok out' /\
    sublist out' out /\ (length out' <= length out)%nat.
Proof.
  assert (Forall symbol_ok example_rows) as Hok
    by (repeat constructor; vm_compute; exact I).
  split; [exact Hok|].
  apply (typing_narrows example_rows "a" "ab" Hok); reflexivity.
Defined.

(** *** Cells *)

Lemma round_half_up_integral_value (num den k : Z) :
  0 < den -> num mod den = 0 ->
  JS.round_half_up (num * k) den = num / den * k.
Proof.
  intros Hd Hm. unfold JS.round_half_up.
  apply Z.mod_divide in Hm as [q ->]; [|lia].
  rewrite Z.div_mul by lia.
  replace (2 * (q * den * k) + den) with (den + (q * k) * (2 * den)) by lia.
  rewrite Z.div_add by lia. rewrite (Z.div_small den (2 * den)) by lia. lia.
Qed.

(** An integral Number is shown the same whatever the maximum of fraction
    digits. *)
Lemma toLocaleString_integer_any (x : float) (f f' : nat) :
  JS.isInteger x = true -> JS.toLocaleString x f = JS.toLocaleString x f'.
Proof.
  unfold JS.isInteger, JS.toLocaleString.
  destruct (Prim2SF x) as [s|s| |s m e]; try reflexivity.
  unfold JS.scaled_round. destruct (JS.ratio_of m e) as [num den] eqn:Er.
  intros Hi%Z.eqb_eq. apply ratio_of_pos in Er as [Hn Hd].
  assert (forall g : nat, 0 < 10 ^ Z.of_nat g) as Hp
    by (intros g; apply Z.pow_pos_nonneg; lia).
  rewrite !round_half_up_integral_value by assumption.
  rewrite !Z.div_mul, !Z.mod_mul by (apply Z.neq_sym, Z.lt_neq, Hp).
  now rewrite !fixed_digits_zero, !strip_trailing_zeros_zeros.
Qed.

(** X8: from a magnitude of 100 on, a currency cell is the plain cell with
    the currency symbol in front. *)
Theorem money_is_fmt_with_symbol (v : value) :
  is_blank v = false -> JS.isNaN (Number v) = false ->
  (100 <=? JS.Math_abs (Number v))%float = true ->
  money v = "$" +:+ fmt v.
Proof.
  intros Hb Hn H100. unfold money, fmt. rewrite Hb, Hn, H100.
  destruct ((1000 <=? JS.Math_abs (Number v))%float && JS.isInteger (Number v)) eqn:E;
    [|reflexivity].
  apply andb_true_iff in E as [_ Hi].
  now rewrite (toLocaleString_integer_any _ 2 JS.default_maximumFractionDigits Hi).
Qed.

Lemma money_is_fmt_with_symbol_witness :
  money (VStr "2500") = "$" +:+ fmt (VStr "2500") /\
  money (VNum 150.2) = "$" +:+ fmt (VNum 150.2).
Proof.
  split; apply money_is_fmt_with_symbol; vm_compute; reflexivity.
Defined.

Lemma StringToNumber_whitespace (s : string) :
  all_whitespace s = true -> JS.StringToNumber s = 0%float.
Proof.
  intros H. apply (proj2 (trim_empty s)) in H. unfold JS.StringToNumber.
  now rewrite H.
Qed.

(** X9: a cell that holds white space only is not a blank cell: unlike the
    empty string, which is shown empty, it coerces to 0 and is shown as "0"
    ("$0" as currency), is sorted as the Number 0, and adds 0 to a total. *)
Theorem whitespace_cell_is_zero (s : string) :
  s <> "" -> all_whitespace s = true ->
  fmt (VStr s) = "0" /\ money (VStr s) = "$0" /\
  comp_of (VStr s) = CNum 0 /\
  (forall (r : PremiumRow) d, get r (net_key d) = VStr s -> net_value r d = 0%float) /\
  fmt (VStr "") = "" /\ money (VStr "") = "".
Proof.
  intros Hne Hws. pose proof (StringToNumber_whitespace s Hws) as Hn.
  assert (is_blank (VStr s) = false) as Hb by (destruct s; [congruence | reflexivity]).
  split; [|split; [|split; [|split; [|split]]]]; try reflexivity.
  - unfold fmt. rewrite Hb. simpl Number. rewrite Hn. vm_compute. reflexivity.
  - unfold money. rewrite Hb. simpl Number. rewrite Hn. vm_compute. reflexivity.
  - unfold comp_of. simpl Number. rewrite Hn. reflexivity.
  - intros r d Hr. unfold net_value. rewrite Hr. exact Hn.
Qed.

Lemma whitespace_cell_is_zero_witness :
  fmt (VStr "  ") = "0" /\ money (VStr "  ") = "$0".
Proof.
  destruct (whitespace_cell_is_zero "  ") as (H1 & H2 & _);
    [discriminate | reflexivity |].
  split; assumption.
Defined.

(** X10: a value that arrives as a numeric string is treated as the
    Number it denotes: it is shown the same, plain or as currency, it is
    compared by that Number, so that two numeric strings sort by value and
    not by their text, and it adds that Number to a total. *)
Theorem numeric_string_is_number (s t : string) :
  s <> "" -> JS.isNaN (JS.StringToNumber s) = false ->
  JS.isNaN (JS.StringToNumber t) = false ->
  fmt (VStr s) = fmt (VNum (JS.StringToNumber s)) /\
  money (VStr s) = money (VNum (JS.StringToNumber s)) /\
  comp_of (VStr s) = comp_of (VNum (JS.StringToNumber s)) /\
  less_than (comp_of (VStr s)) (comp_of (VStr t)) =
    (JS.StringToNumber s <? JS.StringToNumber t)%float /\
  (forall (r r' : PremiumRow) d,
     get r (net_key d) = VStr s ->
     get r' (net_key d) = VNum (JS.StringToNumber s) ->
     net_value r d = net_value r' d).
Proof.
  intros Hne Hs Ht.
  assert (is_blank (VStr s) = false) as Hb by (destruct s; [congruence | reflexivity]).
  split; [|split; [|split; [|split]]].
  - unfold fmt. rewrite Hb. simpl is_blank. simpl Number. now rewrite Hs.
  - unfold money. rewrite Hb. simpl is_blank. simpl Number. now rewrite Hs.
  - unfold comp_of. simpl Number. now rewrite Hs.
  - unfold comp_of. simpl Number. now rewrite Hs, Ht.
  - intros r r' d Hr Hr'. unfold net_value. now rewrite Hr, Hr'.
Qed.

Lemma numeric_string_is_number_witness :
  fmt (VStr "1500") = fmt (VNum 1500) /\
  less_than (comp_of (VStr "9")) (comp_of (VStr "10")) = true /\
  JS.string_lt "9" "10" = false.
Proof.
  destruct (numeric_string_is_number "1500" "10") as (H1 & _);
    [discriminate | vm_compute; reflexivity | vm_compute; reflexivity |].
  destruct (numeric_string_is_number "9" "10") as (_ & _ & _ & H4 & _);
    [discriminate | vm_compute; reflexivity | vm_compute; reflexivity |].
  split; [rewrite H1; vm_compute; reflexivity|].
  split; [rewrite H4; vm_compute; reflexivity | reflexivity].
Defined.

Lemma digits_fuel_nonempty (fuel : nat) (n : Z) (c : ascii) (acc : string) :
  JS.digits_fuel fuel n (String c acc) <> "".
Proof.
  revert n c acc. induction fuel as [|fuel IH]; intros n c acc; simpl; [discriminate|].
  destruct (n <? 10); [discriminate | apply IH].
Qed.

Lemma decimal_string_nonempty (n : Z) : JS.decimal_string n <> "".
Proof.
  unfold JS.decimal_string. simpl.
  destruct (n <? 10); [discriminate | apply digits_fuel_nonempty].
Qed.

Lemma render_nonempty (neg : bool) (ip fp : string) :
  ip <> "" -> JS.render neg ip fp <> "".
Proof.
  intros Hip H. apply (f_equal String.length) in H.
  unfold JS.render in H. rewrite !string_length_app in H.
  destruct ip as [|c ip]; [congruence|]. simpl in H. lia.
Qed.

(** [toLocaleString] never gives the empty string. *)
Lemma toLocaleString_nonempty (x : float) (f : nat) : JS.toLocaleString x f <> "".
Proof.
  unfold JS.toLocaleString. destruct (Prim2SF x) as [s|[]| |s m e]; try discriminate.
  - now apply render_nonempty.
  - apply render_nonempty, decimal_string_nonempty.
Qed.

Lemma ToString_nonempty (v : value) :
  is_blank v = false -> JS.isNaN (Number v) = true -> ToString v <> "".
Proof.
  destruct v as [| |b|n|s]; simpl; intros Hb Hn; try discriminate.
  - destruct b; discriminate.
  - unfold JS.Number_toString. rewrite (Prim2SF_nan n Hn). discriminate.
  - destruct s; congruence.
Qed.

(** X11: a cell is shown empty exactly when its value is blank (null,
    undefined or the empty string): every other value, whether it coerces
    to a Number or not, leaves something to read, and a currency cell that
    shows a Number starts with the currency symbol. *)
Theorem empty_cell_iff_blank (v : value) :
  (fmt v = "" <-> is_blank v = true) /\
  (money v = "" <-> is_blank v = true) /\
  (is_blank v = false -> JS.isNaN (Number v) = false ->
   exists text, money v = String "$" text /\ text <> "").
Proof.
  unfold fmt, money. destruct (is_blank v) eqn:Hb.
  - repeat split; congruence.
  - destruct (JS.isNaN (Number v)) eqn:Hn.
    + pose proof (ToString_nonempty v Hb Hn). repeat split; congruence.
    + split; [|split].
      * split; [|discriminate]. intros H. exfalso. revert H.
        destruct (_ && _); [|destruct (_ <=? _)%float];
          apply toLocaleString_nonempty.
      * split; discriminate.
      * intros _ _. eexists. split; [reflexivity|]. apply toLocaleString_nonempty.
Qed.

Lemma empty_cell_iff_blank_witness :
  exists text, money (VStr "-7") = String "$" text /\ text <> "".
Proof.
  apply (empty_cell_iff_blank (VStr "-7")); vm_compute; reflexivity.
Defined.

(** *** Totals *)

Lemma contributions_same_nets (xs ys : list PremiumRow) (d : float) :
  same_nets xs ys -> d ∈ DELTAS -> contributions d xs = contributions d ys.
Proof.
  intros H Hd. induction H as [|x y xs ys Hxy _ IH]; [reflexivity|].
  rewrite !contributions_cons, IH. unfold net_value. now rewrite (Hxy d Hd).
Qed.

(** X12: every total is the sum, taken left to right in the order the rows
    are shown in, of the net values of the visible rows that are Numbers;
    its cell always finds its total (the fallback to 0 is never taken) and
    shows it as currency with at most 2 fraction digits, or as "NaN" when
    the sum is no Number (an infinite net met its opposite). *)
Theorem totals_cell_shows_sum (vis : list PremiumRow) (d : float) :
  d ∈ DELTAS ->
  let sum := running_sum 0 (contributions d vis) in
  netTotalsByDelta vis !! JS.toFixed d 2 = Some sum /\
  totals_cell (netTotalsByDelta vis) d =
    (if JS.isNaN sum then "NaN" else "$" +:+ JS.toLocaleString sum 2) /\
  (JS.isNaN sum = false -> shows_at_most 2 (JS.toLocaleString sum 2)).
Proof.
  intros Hd sum. pose proof (netTotals_lookup vis d Hd) as H.
  unfold delta_key in H. fold sum in H.
  split; [exact H|]. split.
  - unfold totals_cell. rewrite H. unfold money. simpl is_blank. simpl Number.
    destruct (JS.isNaN sum) eqn:E; [|reflexivity].
    simpl. unfold JS.Number_toString. now rewrite (Prim2SF_nan sum E).
  - apply toLocaleString_shows.
Qed.

Lemma totals_cell_shows_sum_witness :
  delta_015 ∈ DELTAS /\
  netTotalsByDelta example_rows !! JS.toFixed delta_015 2 = Some 35%float /\
  totals_cell (netTotalsByDelta example_rows) delta_015 = "$35".
Proof.
  assert (delta_015 ∈ DELTAS) as Hd.
  { apply (list_elem_of_lookup_2 _ 2%nat). vm_compute. reflexivity. }
  split; [exact Hd|].
  destruct (totals_cell_shows_sum example_rows delta_015 Hd) as (H1 & H2 & _).
  split.
  - rewrite H1. vm_compute. reflexivity.
  - rewrite H2. vm_compute. reflexivity.
Defined.

(** X13: the totals read the net fields and nothing else: two row sets
    with the same net fields, row by row, have the same totals, whatever
    their symbols, strikes, premiums and other fields are. *)
Theorem totals_read_nets_only (xs ys : list PremiumRow) :
  same_nets xs ys -> netTotalsByDelta xs = netTotalsByDelta ys.
Proof.
  intros H. apply map_eq. intros k.
  destruct (decide (k ∈ delta_keys)) as [Hk|Hk].
  - rewrite <- delta_keys_eq in Hk. apply list_elem_of_fmap in Hk as (d & -> & Hd).
    rewrite !netTotals_lookup by assumption.
    now rewrite (contributions_same_nets xs ys d H Hd).
  - unfold netTotalsByDelta. now rewrite !rows_lookup_other by assumption.
Qed.

Lemma totals_read_nets_only_witness :
  netTotalsByDelta [ {[ "symbol" := VStr "AAA"; "0.15N" := VNum 10 ]} ] =
  netTotalsByDelta [ {[ "symbol" := VStr "ZZZ"; "0.15N" := VNum 10;
                        "0.15S" := VNum 3; "Shares" := VNum 100 ]} ].
Proof.
  apply totals_read_nets_only. constructor; [|constructor].
  intros d Hd. unfold DELTAS in Hd. simpl in Hd.
  repeat (apply elem_of_cons in Hd as [->|Hd]; [vm_compute; reflexivity|]).
  now apply elem_of_nil in Hd.
Defined.

(** *** The page over any sequence of events *)

Lemma run_snoc (offsetLeft : string -> Z) (es : list event) (e : event) :
  run offsetLeft (es ++ [e]) = step offsetLeft (run offsetLeft es) e.
Proof. unfold run. now rewrite foldl_app. Qed.

Lemma fetches_snoc (es : list event) (e : event) :
  fetches (es ++ [e]) = (fetches es + if is_user_event e then 0 else 1)%nat.
Proof.
  unfold fetches. rewrite List.filter_app, length_app. simpl.
  now destruct (is_user_event e).
Qed.

Lemma commit_scrolls (offsetLeft : string -> Z) (previous : option nat)
    (scrolls : list Z) (s : state) :
  let v := commit offsetLeft previous scrolls s in
  deps_current v /\
  (v_scrolls v = scrolls \/
   v_scrolls v = scrolls ++ [Z.max 0 (offsetLeft "0.15" - STICKY_TOTAL - 8)]).
Proof.
  unfold commit, deps_current.
  destruct previous as [n|].
  - destruct (Nat.eqb n (length (st_rows s))) eqn:E; simpl.
    + apply Nat.eqb_eq in E. subst n. split; [reflexivity | now left].
    + split; [reflexivity|]. unfold auto_scroll.
      destruct (Nat.eqb (length (st_rows s)) 0); [left; apply app_nil_r | now right].
  - simpl. split; [reflexivity|]. unfold auto_scroll.
    destruct (Nat.eqb (length (st_rows s)) 0); [left; apply app_nil_r | now right].
Qed.

(** X14: whatever happens to the page, in whatever order (the fetch
    settling, edits of the filter, clicks on headers), the effect has run
    with the current number of rows, every scroll it asked for went to the
    same place, the offset of the 0.15 group left of the frozen columns and
    never a negative one, and it asked for at most one scroll each time the
    fetch settled: nothing the user does scrolls the table. *)
Theorem scrolls_only_after_fetch (offsetLeft : string -> Z) (es : list event) :
  let v := run offsetLeft es in
  let anchor := Z.max 0 (offsetLeft "0.15" - STICKY_TOTAL - 8) in
  v_deps v = Some (length (st_rows (v_state v))) /\
  Forall (fun x => x = anchor /\ 0 <= x) (v_scrolls v) /\
  (length (v_scrolls v) <= fetches es)%nat.
Proof.
  induction es as [|e es IH] using rev_ind.
  - repeat split; [constructor | simpl; lia].
  - cbv zeta in *. rewrite run_snoc, fetches_snoc.
    destruct IH as (Hd & Hall & Hlen).
    destruct (is_user_event e) eqn:He.
    + destruct (step_user_event offsetLeft _ e He Hd) as (Hd' & _ & Hs).
      split; [exact Hd'|]. rewrite Hs. split; [exact Hall | lia].
    + unfold step.
      destruct (commit_scrolls offsetLeft (v_deps (run offsetLeft es))
                  (v_scrolls (run offsetLeft es))
                  (handle e (v_state (run offsetLeft es)))) as [Hd' [Hs|Hs]];
        cbv zeta in Hd', Hs; (split; [exact Hd'|]); rewrite Hs.
      * split; [exact Hall | lia].
      * split.
        -- apply Forall_app. split; [exact Hall|]. constructor; [|constructor].
           split; [reflexivity | lia].
        -- rewrite length_app. simpl. lia.
Qed.

Lemma handle_sort_key (e : event) (s : state) :
  st_sortKey (handle e s) = st_sortKey s \/
  e = HeaderClick (st_sortKey (handle e s)).
Proof.
  destruct e as [r|text|key0]; [now left | now left |].
  unfold handle, toggleSort.
  destruct (String.eqb (st_sortKey s) key0) eqn:E.
  - apply String.eqb_eq in E. left. simpl. now destruct (st_sortDir s).
  - now right.
Qed.

(** X15: the rows are only ever sorted by one of the three frozen columns:
    as long as the clicks are on the headers that sort (the only ones wired
    to [toggleSort]), the sort key of the state is "symbol",
    "UnderlyingPrice" or "Shares", whatever else happens in between. *)
Theorem sort_key_is_frozen_column (offsetLeft : string -> Z) (es : list event) :
  clicks_frozen es ->
  st_sortKey (v_state (run offsetLeft es)) ∈ frozen_keys.
Proof.
  induction es as [|e es IH] using rev_ind; intros H.
  - apply (list_elem_of_lookup_2 _ 0%nat). reflexivity.
  - unfold clicks_frozen in H. apply Forall_app in H as [Hes He].
    apply Forall_inv in He. rewrite run_snoc. unfold step.
    assert (forall p sc s, v_state (commit offsetLeft p sc s) = s) as Hst.
    { intros p sc s. unfold commit. now destruct (match p with None => _ | _ => _ end). }
    rewrite Hst.
    destruct (handle_sort_key e (v_state (run offsetLeft es))) as [E|E].
    + rewrite E. now apply IH.
    + rewrite E in He. exact He.
Qed.

Lemma sort_key_is_frozen_column_witness :
  st_sortKey (v_state (run (fun _ => 0)
    [HeaderClick "Shares"; QueryInput "a"; Fetched Failed;
     HeaderClick "UnderlyingPrice"; HeaderClick "UnderlyingPrice"]))
  ∈ frozen_keys.
Proof.
  apply sort_key_is_frozen_column.
  repeat constructor;
    first [ apply (list_elem_of_lookup_2 _ 2%nat); reflexivity
          | apply (list_elem_of_lookup_2 _ 1%nat); reflexivity ].
Defined.

(** *** The sign-in link *)

Lemma escape_char (c : ascii) :
  let h1 := hex_char (N_of_ascii c / 16) in
  let h2 := hex_char (N_of_ascii c mod 16) in
  (is_unreserved c = true /\ Ascii.eqb c "%" = false) \/
  (is_unreserved c = false /\
   ascii_of_N (hex_val h1 * 16 + hex_val h2) = c /\
   is_uri_safe h1 = true /\ is_uri_safe h2 = true).
Proof.
  destruct c as [[] [] [] [] [] [] [] []]; vm_compute;
    first [ left; split; reflexivity | right; repeat split; reflexivity ].
Qed.

Lemma encodeURIComponent_safe (s : string) :
  all_chars is_uri_safe (encodeURIComponent s) = true.
Proof.
  induction s as [|c s IH]; [reflexivity|]. simpl.
  destruct (escape_char c) as [[Hu _]|(Hu & _ & H1 & H2)]; rewrite Hu; simpl.
  - unfold is_uri_safe at 1. now rewrite Hu, IH.
  - now rewrite H1, H2, IH.
Qed.

Lemma unescape_encodeURIComponent (s : string) :
  unescape (encodeURIComponent s) = s.
Proof.
  induction s as [|c s IH]; [reflexivity|]. simpl.
  destruct (escape_char c) as [[Hu Hp]|(Hu & Hc & _)]; rewrite Hu.
  - simpl. now rewrite Hp, IH.
  - cbv zeta in Hc. simpl. now rewrite Hc, IH.
Qed.

Lemma occurs_safe (c : ascii) (s : string) :
  is_uri_safe c = false -> all_chars is_uri_safe s = true -> occurs c s = false.
Proof.
  intros Hc. induction s as [|c' s IH]; [reflexivity|]. simpl.
  intros H. apply andb_true_iff in H as [H1 H2]. rewrite (IH H2), orb_false_r.
  destruct (Ascii.eqb c c') eqn:E; [|reflexivity].
  apply Ascii.eqb_eq in E. congruence.
Qed.

Lemma string_app_inj (p a b : string) : p +:+ a = p +:+ b -> a = b.
Proof.
  induction p as [|c p IH]; [trivial|].
  rewrite !string_app_cons. intros H. injection H as H. now apply IH.
Qed.

(** X16: once the effect has run, the redirect of the sign-in link is the
    address of the page with every character that could end or split the
    query parameter escaped: no "&", "=", "#", "?", "/", ":", "+" or space
    is left in it; unescaping it gives the address back; and so two
    different addresses never give the same link. *)
Theorem login_link_carries_address (href : string) :
  (forall c, c ∈ query_delimiters -> occurs c (hydrated_redir href) = false) /\
  unescape (hydrated_redir href) = href /\
  (forall other, login_href (hydrated_redir other) = login_href (hydrated_redir href) ->
                 other = href).
Proof.
  unfold hydrated_redir. split; [|split].
  - intros c Hc. apply occurs_safe; [|apply encodeURIComponent_safe].
    unfold query_delimiters in Hc.
    repeat (apply elem_of_cons in Hc as [->|Hc]; [reflexivity|]).
    now apply elem_of_nil in Hc.
  - apply unescape_encodeURIComponent.
  - intros other H. unfold login_href in H. apply string_app_inj in H.
    apply (f_equal unescape) in H. now rewrite !unescape_encodeURIComponent in H.
Qed.

(** *** The keys of the body rows *)

(** Number::toString of an index is its decimal digits. *)
Lemma index_string :
  Forall (fun i => JS.Number_toString (Number_of_nat i) = JS.decimal_string (Z.of_nat i))
         [0; 1; 9; 10; 11; 99; 100; 101; 1000; 4095]%nat.
Proof. repeat constructor. Qed.

Lemma digit_char_spec (d : Z) :
  0 <= d < 10 -> is_digit (JS.digit_char d) = true /\ JS.digit_val (JS.digit_char d) = d.
Proof.
  intros H.
  assert (d = 0 \/ d = 1 \/ d = 2 \/ d = 3 \/ d = 4 \/ d = 5 \/ d = 6 \/ d = 7 \/
          d = 8 \/ d = 9) as Hd by lia.
  repeat (destruct Hd as [->|Hd]; [split; reflexivity|]). subst d. split; reflexivity.
Qed.

Lemma digits_fuel_value (fuel : nat) (n : Z) (acc : string) :
  0 <= n < 10 ^ Z.of_nat fuel ->
  decimal_value 0 (JS.digits_fuel fuel n acc) = decimal_value n acc.
Proof.
  revert n acc. induction fuel as [|fuel IH]; intros n acc Hn.
  - simpl in *. now replace n with 0 by lia.
  - rewrite Nat2Z.inj_succ, Z.pow_succ_r in Hn by lia.
    assert (0 <= n mod 10 < 10) as Hm by (apply Z.mod_pos_bound; lia).
    destruct (digit_char_spec _ Hm) as [_ Hv].
    cbn [JS.digits_fuel]. cbv zeta.
    destruct (n <? 10) eqn:E.
    + apply Z.ltb_lt in E. cbn [decimal_value]. rewrite Hv.
      now rewrite Z.mod_small by lia.
    + apply Z.ltb_ge in E. rewrite IH.
      * cbn [decimal_value]. rewrite Hv. f_equal.
        pose proof (Z.div_mod n 10). lia.
      * split; [apply Z.div_pos; lia|]. apply Z.div_lt_upper_bound; lia.
Qed.

Lemma decimal_string_value (n : Z) :
  0 <= n -> decimal_value 0 (JS.decimal_string n) = n.
Proof.
  intros Hn. unfold JS.decimal_string. rewrite digits_fuel_value; [reflexivity|].
  split; [exact Hn|].
  rewrite Nat2Z.inj_succ, Z2Nat.id by apply Z.log2_nonneg.
  destruct (Z.eq_dec n 0) as [->|Hne]; [reflexivity|].
  pose proof (Z.log2_spec n ltac:(lia)) as [_ H].
  eapply Z.lt_le_trans; [exact H|].
  apply Z.pow_le_mono_l. lia.
Qed.

Lemma digits_fuel_digits (fuel : nat) (n : Z) (acc : string) :
  0 <= n -> all_chars is_digit acc = true ->
  all_chars is_digit (JS.digits_fuel fuel n acc) = true.
Proof.
  revert n acc. induction fuel as [|fuel IH]; intros n acc Hn Hacc; [exact Hacc|].
  assert (0 <= n mod 10 < 10) as Hm by (apply Z.mod_pos_bound; lia).
  destruct (digit_char_spec _ Hm) as [Hd _].
  cbn [JS.digits_fuel]. cbv zeta.
  assert (all_chars is_digit (String (JS.digit_char (n mod 10)) acc) = true) as H
    by (cbn [all_chars]; now rewrite Hd, Hacc).
  destruct (n <? 10); [exact H|].
  apply IH; [apply Z.div_pos; lia | exact H].
Qed.

Lemma decimal_string_digits (n : Z) :
  0 <= n -> all_chars is_digit (JS.decimal_string n) = true.
Proof. intros Hn. now apply digits_fuel_digits. Qed.

Lemma all_chars_app (p : ascii -> bool) (s t : string) :
  all_chars p (s +:+ t) = all_chars p s && all_chars p t.
Proof.
  induction s as [|c s IH]; [reflexivity|].
  rewrite string_app_cons. cbn [all_chars]. now rewrite IH, andb_assoc.
Qed.

Lemma digits_end_in_digit (s : string) :
  all_chars is_digit s = true -> s <> "" -> ends_in_digit s = true.
Proof.
  induction s as [|c s IH]; [congruence|]. cbn [all_chars].
  intros H _. apply andb_true_iff in H as [Hc Hs].
  destruct s as [|c' s]; [exact Hc|]. cbn [ends_in_digit]. now apply IH.
Qed.

Lemma ends_in_digit_tail (c : ascii) (s : string) :
  ends_in_digit (String c s) = false -> ends_in_digit s = false.
Proof. destruct s; [reflexivity | trivial]. Qed.

(** A string that does not end in a digit, followed by digits, is read
    back in one way only. *)
Lemma digits_suffix_unique (s1 s2 d1 d2 : string) :
  ends_in_digit s1 = false -> ends_in_digit s2 = false ->
  all_chars is_digit d1 = true -> all_chars is_digit d2 = true ->
  s1 +:+ d1 = s2 +:+ d2 -> d1 = d2.
Proof.
  revert s2. induction s1 as [|c1 s1 IH]; intros s2 H1 H2 Hd1 Hd2 E.
  - destruct s2 as [|c2 s2]; [exact E|]. exfalso.
    change ("" +:+ d1) with d1 in E. subst d1.
    rewrite all_chars_app in Hd1. apply andb_true_iff in Hd1 as [Hs _].
    rewrite digits_end_in_digit in H2; [discriminate | exact Hs | discriminate].
  - destruct s2 as [|c2 s2].
    + exfalso. change ("" +:+ d2) with d2 in E. subst d2.
      rewrite all_chars_app in Hd2. apply andb_true_iff in Hd2 as [Hs _].
      rewrite digits_end_in_digit in H1; [discriminate | exact Hs | discriminate].
    + rewrite !string_app_cons in E. injection E as _ E.
      apply (IH s2); eauto using ends_in_digit_tail.
Qed.

Lemma row_keys_lookup (vis : list PremiumRow) (i : nat) :
  row_keys vis !! i = (fun r => row_key r i) <$> vis !! i.
Proof. unfold row_keys. apply list_lookup_imap. Qed.

(** X17: the keys React tells the body rows apart by are all different
    when every symbol is a string that does not end in a digit: the index
    that follows the symbol can then be read back from the key. *)
Theorem row_keys_distinct (vis : list PremiumRow) :
  plain_symbols vis -> NoDup (row_keys vis).
Proof.
  intros Hplain. apply NoDup_alt. intros i j k Hi Hj.
  rewrite row_keys_lookup in Hi, Hj.
  destruct (vis !! i) as [a|] eqn:Ha; [|discriminate].
  destruct (vis !! j) as [b|] eqn:Hb; [|discriminate].
  simpl in Hi, Hj. injection Hi as Hi. injection Hj as Hj.
  destruct (Hplain a (list_elem_of_lookup_2 _ _ _ Ha)) as (sa & Ea & Hsa).
  destruct (Hplain b (list_elem_of_lookup_2 _ _ _ Hb)) as (sb & Eb & Hsb).
  unfold row_key in Hi, Hj. rewrite Ea in Hi. rewrite Eb in Hj.
  assert (JS.decimal_string (Z.of_nat i) = JS.decimal_string (Z.of_nat j)) as E.
  { apply (digits_suffix_unique sa sb); auto using decimal_string_digits with lia.
    congruence. }
  apply (f_equal (decimal_value 0)) in E.
  rewrite !decimal_string_value in E by lia. lia.
Qed.

Lemma row_keys_distinct_witness : NoDup (row_keys example_rows).
Proof.
  apply row_keys_distinct. intros r Hr. unfold example_rows in Hr.
  repeat (apply elem_of_cons in Hr as [->|Hr];
          [eexists; split; [vm_compute; reflexivity | reflexivity]|]).
  now apply elem_of_nil in Hr.
Defined.

(** X18: a symbol that ends in a digit can give two rows the same key:
    whatever the string [s] is, a row with the symbol [s] followed by "1"
    at index 1 and a row with the symbol [s] at index 11 both have the key
    [s] followed by "11", so the keys of the body rows are not always
    different. *)
Theorem row_keys_can_collide (vis : list PremiumRow) (a b : PremiumRow) (s : string) :
  vis !! 1%nat = Some a -> vis !! 11%nat = Some b ->
  get a "symbol" = VStr (s +:+ "1") -> get b "symbol" = VStr s ->
  row_keys vis !! 1%nat = Some (s +:+ "11") /\
  row_keys vis !! 11%nat = Some (s +:+ "11") /\
  ~ NoDup (row_keys vis).
Proof.
  intros Ha Hb Ea Eb.
  assert (row_keys vis !! 1%nat = Some (s +:+ "11")) as H1.
  { rewrite row_keys_lookup, Ha. simpl. unfold row_key. rewrite Ea.
    f_equal. change (JS.decimal_string (Z.of_nat 1)) with "1".
    rewrite string_app_assoc. reflexivity. }
  assert (row_keys vis !! 11%nat = Some (s +:+ "11")) as H11.
  { rewrite row_keys_lookup, Hb. simpl. unfold row_key. now rewrite Eb. }
  split; [exact H1|]. split; [exact H11|].
  intros Hnd. pose proof (proj1 (NoDup_alt _) Hnd _ _ _ H1 H11). discriminate.
Qed.

Lemma row_keys_can_collide_witness :
  let a : PremiumRow := {[ "symbol" := VStr "F1" ]} in
  let b : PremiumRow := {[ "symbol" := VStr "F" ]} in
  ~ NoDup (row_keys (b :: a :: replicate 9 b ++ [b])).
Proof.
  intros a b.
  apply (row_keys_can_collide (b :: a :: replicate 9 b ++ [b]) a b "F");
    reflexivity.
Defined.
